(** * Metadata extractor (app.py): a shallow embedding and its properties

    The program reads the text of a paper and extracts an author line, an
    abstract and a keyword list with regular expressions over the lines of
    the text.  Text is modelled as Python has it: a sequence of Unicode code
    points.  The regular expressions are kept as syntax and run by a
    backtracking matcher that follows the order in which Python's [re]
    explores alternatives and greedy repetitions. *)

From Stdlib Require Import String Ascii.
From Stdlib Require Import List NArith Bool Arith Lia.
Import ListNotations.

Set Implicit Arguments.

(** ** Text *)

(** A Python [str]: its code points, in order. *)
Definition str := list N.

(** An ASCII literal as a [str]. *)
Definition py (s : string) : str := map N_of_ascii (list_ascii_of_string s).

Definition str_eqb (a b : str) : bool :=
  if list_eq_dec N.eq_dec a b then true else false.

Definition in_range (lo hi c : N) : bool := (lo <=? c)%N && (c <=? hi)%N.

(** [c.isspace()], which is also the class [\s] of a [str] pattern. *)
Definition is_space (c : N) : bool :=
  in_range 9 13 c || in_range 28 32 c || (c =? 133)%N || (c =? 160)%N
  || (c =? 5760)%N || in_range 8192 8202 c || (c =? 8232)%N || (c =? 8233)%N
  || (c =? 8239)%N || (c =? 8287)%N || (c =? 12288)%N.

(** The line boundaries of [str.splitlines]. *)
Definition is_linebreak (c : N) : bool :=
  in_range 10 13 c || in_range 28 30 c || (c =? 133)%N || (c =? 8232)%N
  || (c =? 8233)%N.

Definition is_upper_ascii (c : N) : bool := in_range 65 90 c.
Definition is_lower_ascii (c : N) : bool := in_range 97 122 c.
Definition is_digit_ascii (c : N) : bool := in_range 48 57 c.
Definition is_ascii (c : N) : bool := (c <? 128)%N.

Definition lower_ascii (c : N) : N := if is_upper_ascii c then (c + 32)%N else c.
Definition upper_ascii (c : N) : N := if is_lower_ascii c then (c - 32)%N else c.

(** What the program takes from the interpreter's Unicode database outside
    ASCII: which code points are alphanumeric (the class [\w] is these and
    the underscore), and the case mappings of [str.lower] and [str.upper],
    which act on whole strings (the lower case of a capital sigma depends on
    its position).  On ASCII all three are fixed below. *)
Class UnicodeData := {
  uni_alnum : N -> bool;
  uni_lower : str -> str;
  uni_upper : str -> str
}.

(** The tables of an interpreter that knows no letter outside ASCII. *)
Definition ascii_tables : UnicodeData :=
  {| uni_alnum := fun _ => false; uni_lower := fun s => s; uni_upper := fun s => s |}.

Section Extractor.

Context {U : UnicodeData}.

(** The class [\w]. *)
Definition is_word (c : N) : bool :=
  if is_ascii c
  then is_upper_ascii c || is_lower_ascii c || is_digit_ascii c || (c =? 95)%N
  else uni_alnum c.

(** [s.lower()] and [s.upper()]. *)
Definition lower (s : str) : str :=
  if forallb is_ascii s then map lower_ascii s else uni_lower s.

Definition upper (s : str) : str :=
  if forallb is_ascii s then map upper_ascii s else uni_upper s.

(** [s.strip()] and [s.strip(chars)]. *)
Fixpoint lstrip_by (p : N -> bool) (s : str) : str :=
  match s with
  | c :: t => if p c then lstrip_by p t else s
  | [] => []
  end.

Definition strip_by (p : N -> bool) (s : str) : str :=
  rev (lstrip_by p (rev (lstrip_by p s))).

Definition strip (s : str) : str := strip_by is_space s.

Definition one_of (chars : str) (c : N) : bool := existsb (N.eqb c) chars.

Definition strip_chars (chars : str) (s : str) : str := strip_by (one_of chars) s.

(** [sep.join(parts)]. *)
Fixpoint join (sep : str) (parts : list str) : str :=
  match parts with
  | [] => []
  | [p] => p
  | p :: rest => p ++ sep ++ join sep rest
  end.

(** [needle in s]. *)
Fixpoint is_prefix (a s : str) : bool :=
  match a, s with
  | [], _ => true
  | x :: a', y :: s' => (x =? y)%N && is_prefix a' s'
  | _ :: _, [] => false
  end.

Fixpoint contains (needle s : str) : bool :=
  is_prefix needle s ||
  match s with
  | [] => false
  | _ :: t => contains needle t
  end.

(** [s.split(sep)] for a non-empty separator: [skip] counts the code points
    of a separator just found that are still to be passed over. *)
Fixpoint split_from (sep : str) (skip : nat) (cur : str) (s : str) : list str :=
  match s with
  | [] => [rev cur]
  | c :: t =>
      match skip with
      | S k => split_from sep k cur t
      | O => if is_prefix sep s
             then rev cur :: split_from sep (length sep - 1) [] t
             else split_from sep 0 (c :: cur) t
      end
  end.

Definition split (sep : str) (s : str) : list str := split_from sep 0 [] s.

(** [s.splitlines()]: a line ends at a line boundary, a carriage return
    followed by a line feed is one boundary, and no empty line is reported
    after the last boundary. *)
Fixpoint splitlines_from (cur : str) (s : str) : list str :=
  match s with
  | [] => match cur with [] => [] | _ => [rev cur] end
  | c :: t =>
      if (c =? 13)%N
      then match t with
           | c' :: t' => if (c' =? 10)%N
                         then rev cur :: splitlines_from [] t'
                         else rev cur :: splitlines_from [] t
           | [] => [rev cur]
           end
      else if is_linebreak c then rev cur :: splitlines_from [] t
      else splitlines_from (c :: cur) t
  end.

Definition splitlines (s : str) : list str := splitlines_from [] s.

(** [re.sub(r"\s+", repl, s)]: every maximal run of whitespace is replaced by
    [repl]; [in_run] says that the previous code point was whitespace. *)
Fixpoint sub_spaces (repl : str) (in_run : bool) (s : str) : str :=
  match s with
  | [] => []
  | c :: t =>
      if is_space c
      then (if in_run then sub_spaces repl true t else repl ++ sub_spaces repl true t)
      else c :: sub_spaces repl false t
  end.

(** [re.split(r"[;,]", s)] for a class of single code points. *)
Fixpoint split_class (p : N -> bool) (cur : str) (s : str) : list str :=
  match s with
  | [] => [rev cur]
  | c :: t => if p c then rev cur :: split_class p [] t else split_class p (c :: cur) t
  end.

(** ** Regular expressions *)

Inductive regex : Type :=
| Empty                         (* matches the empty string *)
| Sym (p : N -> bool)           (* one code point of a class *)
| Cat (a b : regex)
| Or (a b : regex)              (* [a|b], [a] tried first *)
| Rep (a : regex)               (* [a*], greedy *)
| Grp (i : nat) (a : regex)     (* capturing group number [i] *)
| Bol                           (* [^] *)
| Eol                           (* [$] *)
| Wordb.                        (* [\b] *)

Definition Opt (a : regex) : regex := Or a Empty.
Definition Plus (a : regex) : regex := Cat a (Rep a).

(** A position in the subject: the code points already passed, the last one
    first, those still ahead, and the groups captured so far. *)
Record mstate := MState {
  seen : str;
  ahead : str;
  groups : list (nat * str)
}.

Definition shift (c : N) (t : str) (st : mstate) : mstate :=
  MState (c :: seen st) t (groups st).

Definition set_group (i : nat) (g : str) (st : mstate) : mstate :=
  MState (seen st) (ahead st) ((i, g) :: groups st).

Fixpoint lookup_group (i : nat) (gs : list (nat * str)) : option str :=
  match gs with
  | [] => None
  | (j, g) :: rest => if Nat.eqb i j then Some g else lookup_group i rest
  end.

(** [m.group(i)]; a group that took no part in the match reads as empty
    here (the program reads only groups that did). *)
Definition group (i : nat) (st : mstate) : str :=
  match lookup_group i (groups st) with Some g => g | None => [] end.

Definition word_before (st : mstate) : bool :=
  match seen st with c :: _ => is_word c | [] => false end.

Definition word_after (st : mstate) : bool :=
  match ahead st with c :: _ => is_word c | [] => false end.

(** The loop of a greedy repetition: [body] matches one iteration, [n] bounds
    the iterations still allowed. *)
Fixpoint rep_loop (body : (mstate -> option mstate) -> mstate -> option mstate)
         (k : mstate -> option mstate) (n : nat) (st : mstate) : option mstate :=
  match n with
  | O => k st
  | S n' =>
      match body (fun st' =>
                    if length (ahead st') <? length (ahead st)
                    then rep_loop body k n' st' else None) st with
      | Some r => Some r
      | None => k st
      end
  end.

(** The matcher, in continuation-passing style: [run r k st] matches [r] at
    [st] and hands the position reached to [k]; when [k] refuses, the next
    way of matching [r] is tried, in Python's order.  A repetition runs its
    body at most once per code point ahead, and an iteration that consumes
    nothing is refused. *)
Fixpoint run (r : regex) (k : mstate -> option mstate) (st : mstate) : option mstate :=
  match r with
  | Empty => k st
  | Sym p =>
      match ahead st with
      | c :: t => if p c then k (shift c t st) else None
      | [] => None
      end
  | Cat a b => run a (run b k) st
  | Or a b =>
      match run a k st with
      | Some r => Some r
      | None => run b k st
      end
  | Rep a => rep_loop (run a) k (length (ahead st)) st
  | Grp i a =>
      run a (fun st' =>
               k (set_group i (firstn (length (ahead st) - length (ahead st')) (ahead st)) st')) st
  | Bol => match seen st with [] => k st | _ :: _ => None end
  | Eol =>
      match ahead st with
      | [] => k st
      | c :: [] => if (c =? 10)%N then k st else None
      | _ => None
      end
  | Wordb => if xorb (word_before st) (word_after st) then k st else None
  end.

(** [pat.match(s)]: a match that starts at the first code point. *)
Definition re_match (r : regex) (s : str) : option mstate :=
  run r Some (MState [] s []).

(** [pat.search(s)] from a position on: the leftmost start that matches.
    [must_move] refuses an empty match at the first start tried, as
    [findall] asks after an empty match. *)
Fixpoint search_from (r : regex) (must_move : bool) (sn : str) (s : str)
  : option (mstate * mstate) :=
  let st := MState sn s [] in
  let accept := fun st' =>
    if must_move && (length (ahead st') =? length s) then None else Some st' in
  match run r accept st with
  | Some e => Some (st, e)
  | None =>
      match s with
      | [] => None
      | c :: t => search_from r false (c :: sn) t
      end
  end.

Definition re_search (r : regex) (s : str) : option (mstate * mstate) :=
  search_from r false [] s.

(** [pat.findall(s)] for a pattern with one group: group 1 of the successive
    non-overlapping matches.  After a match the scan resumes where it ended. *)
Fixpoint findall_from (r : regex) (fuel : nat) (must_move : bool) (sn : str) (s : str)
  : list str :=
  match fuel with
  | O => []
  | S f =>
      match search_from r must_move sn s with
      | None => []
      | Some (b, e) =>
          group 1 e ::
          findall_from r f (length (ahead e) =? length (ahead b)) (seen e) (ahead e)
      end
  end.

Definition findall (r : regex) (s : str) : list str :=
  findall_from r (2 * length s + 2) false [] s.

(** [re.split(pat, s)[0]]: what precedes the first match, or all of [s]. *)
Definition split_head (r : regex) (s : str) : str :=
  match re_search r s with
  | Some (b, _) => rev (seen b)
  | None => s
  end.

(** ** The patterns of the program *)

(** A pattern character under [re.IGNORECASE]: [p] is the character in lower
    case.  Besides its two cases, [i] takes the dotted capital and the dotless
    small i, [s] the long s and [k] the Kelvin sign. *)
Definition ieq (p c : N) : bool :=
  (c =? p)%N
  || (is_lower_ascii p && (c =? p - 32)%N)
  || ((p =? 105)%N && ((c =? 304)%N || (c =? 305)%N))
  || ((p =? 115)%N && (c =? 383)%N)
  || ((p =? 107)%N && (c =? 8490)%N).

(** The class [[A-Z]] under [re.IGNORECASE]. *)
Definition iletter (c : N) : bool :=
  is_upper_ascii c || is_lower_ascii c
  || (c =? 304)%N || (c =? 305)%N || (c =? 383)%N || (c =? 8490)%N.

Definition chr (c : string) : regex := Sym (one_of (py c)).

Fixpoint ilit_of (s : str) : regex :=
  match s with
  | [] => Empty
  | c :: t => Cat (Sym (ieq c)) (ilit_of t)
  end.

(** A literal word under [re.IGNORECASE], written in lower case. *)
Definition ilit (s : string) : regex := ilit_of (py s).

Fixpoint cat (rs : list regex) : regex :=
  match rs with
  | [] => Empty
  | r :: rest => Cat r (cat rest)
  end.

Fixpoint alt (r : regex) (rs : list regex) : regex :=
  match rs with
  | [] => r
  | r' :: rest => Or r (alt r' rest)
  end.

(** [\s*], [[:\-–—]], [.] and [[\.\s]]. *)
Definition spaces : regex := Rep (Sym is_space).
Definition is_dash (c : N) : bool :=
  (c =? 58)%N || (c =? 45)%N || (c =? 8211)%N || (c =? 8212)%N.
Definition dash : regex := Sym is_dash.
Definition not_newline (c : N) : bool := negb (c =? 10)%N.
Definition any : regex := Sym not_newline.
Definition dot_or_space (c : N) : bool := (c =? 46)%N || is_space c.

(** r"keywords?|index\s*terms?" *)
Definition keywords_word : regex := Cat (ilit "keyword") (Opt (ilit "s")).
Definition index_terms_word : regex :=
  cat [ilit "index"; spaces; ilit "term"; Opt (ilit "s")].

(** r"^\s*abstract\b[:\-–—]?\s*$" *)
Definition ABSTRACT_HEAD_PAT : regex :=
  cat [Bol; spaces; ilit "abstract"; Wordb; Opt dash; spaces; Eol].

(** r"^\s*abstract\b[:\-–—]?\s*(.+)$" *)
Definition ABSTRACT_INLINE_PAT : regex :=
  cat [Bol; spaces; ilit "abstract"; Wordb; Opt dash; spaces; Grp 1 (Plus any); Eol].

(** r"^\s*(keywords?|index\s*terms?)\b\s*[:\-–—]?\s*(.{0,})$", the last group
    being written with a star in the source. *)
Definition KEYWORDS_PAT : regex :=
  cat [Bol; spaces; Grp 1 (alt keywords_word [index_terms_word]); Wordb; spaces;
       Opt dash; spaces; Grp 2 (Rep any); Eol].

(** r"^\s*(keywords?|index\s*terms?|introduction|background|1[\.\s]|I[\.\s])\b" *)
Definition NEXT_SECTION_PAT : regex :=
  cat [Bol; spaces;
       Grp 1 (alt keywords_word
                [index_terms_word; ilit "introduction"; ilit "background";
                 Cat (chr "1") (Sym dot_or_space);
                 Cat (ilit "i") (Sym dot_or_space)]);
       Wordb].

(** r"\b[A-Z0-9._%+-]+@[A-Z0-9.-]+\.[A-Z]{2,}\b" *)
Definition email_user (c : N) : bool :=
  iletter c || is_digit_ascii c || one_of (py "._%+-") c.
Definition email_host (c : N) : bool :=
  iletter c || is_digit_ascii c || one_of (py ".-") c.
Definition EMAIL_PAT : regex :=
  cat [Wordb; Plus (Sym email_user); chr "@"; Plus (Sym email_host); chr ".";
       Sym iletter; Sym iletter; Rep (Sym iletter); Wordb].

(** r"\b([A-Z][a-z]+(?:\s+[A-Z]\.)?(?:\s+[A-Z][a-z]+)+)\b" *)
Definition capitalized : regex := Cat (Sym is_upper_ascii) (Plus (Sym is_lower_ascii)).
Definition NAME_PAT : regex :=
  cat [Wordb;
       Grp 1 (cat [capitalized;
                   Opt (cat [Plus (Sym is_space); Sym is_upper_ascii; chr "."]);
                   Plus (Cat (Plus (Sym is_space)) capitalized)]);
       Wordb].

(** r"\b(university|department|dept\.?|institute|laborator|school|college|center|centre)\b" *)
Definition AFFILIATION_PAT : regex :=
  cat [Wordb;
       Grp 1 (alt (ilit "university")
                [ilit "department"; Cat (ilit "dept") (Opt (chr "."));
                 ilit "institute"; ilit "laborator"; ilit "school";
                 ilit "college"; ilit "center"; ilit "centre"]);
       Wordb].

(** r"\b(keywords?|index\s*terms?)\b[:\-–—]?" *)
Definition KEYWORDS_MARK_PAT : regex :=
  cat [Wordb; Grp 1 (alt keywords_word [index_terms_word]); Wordb; Opt dash].

Definition matches (r : regex) (s : str) : bool :=
  match re_match r s with Some _ => true | None => false end.

Definition found (r : regex) (s : str) : bool :=
  match re_search r s with Some _ => true | None => false end.

(** ** The extractors *)

Definition clean_line (s : str) : str := strip (sub_spaces (py " ") false s).

Definition is_empty (s : str) : bool := match s with [] => true | _ => false end.

(** The test that ends an accumulation:
    [not nxt.strip() or NEXT_SECTION_PAT.match(nxt)]. *)
Definition stops (nxt : str) : bool :=
  is_empty (strip nxt) || matches NEXT_SECTION_PAT nxt.

(** The inner [while] loop of [find_abstract] and [find_keywords], from line
    [j] on: the cleaned lines up to the first one that stops it. *)
Fixpoint accumulate (lines : list str) : list str :=
  match lines with
  | [] => []
  | nxt :: rest => if stops nxt then [] else clean_line nxt :: accumulate rest
  end.

(** The [for] loop of [find_abstract]: the value of [abstract_lines] when the
    loop is left. *)
Fixpoint abstract_lines (lines : list str) : list str :=
  match lines with
  | [] => []
  | line :: rest =>
      match re_match ABSTRACT_INLINE_PAT line with
      | Some m => clean_line (group 1 m) :: accumulate rest
      | None =>
          if matches ABSTRACT_HEAD_PAT line then accumulate rest
          else abstract_lines rest
      end
  end.

Definition find_abstract (text : str) : str :=
  let abstract := strip (join (py " ") (abstract_lines (splitlines text))) in
  strip (split_head KEYWORDS_MARK_PAT abstract).

Definition is_semi_or_comma (c : N) : bool := one_of (py ";,") c.

Definition keyword_parts (kws : str) : list str :=
  map (strip_chars (py " .;"))
      (filter (fun p => negb (is_empty (strip_chars (py " .;") p)))
              (split_class is_semi_or_comma [] kws)).

Fixpoint keywords_of_lines (lines : list str) : str :=
  match lines with
  | [] => []
  | line :: rest =>
      match re_match KEYWORDS_PAT line with
      | Some m =>
          let collected := clean_line (group 2 m) :: accumulate rest in
          let kws := strip_chars (py ";") (strip (join (py " ") collected)) in
          join (py ", ") (keyword_parts kws)
      | None => keywords_of_lines rest
      end
  end.

Definition find_keywords (text : str) : str := keywords_of_lines (splitlines text).

(** The first loop of [find_authors]: the lines kept in [filtered]. *)
Definition is_noise (s : str) : bool :=
  found EMAIL_PAT s || contains (py "http") (lower s) || contains (py "doi") (lower s)
  || ((6 <? length s) && str_eqb (upper s) s)
  || found AFFILIATION_PAT s.

Fixpoint filter_lines (scope : list str) : list str :=
  match scope with
  | [] => []
  | ln :: rest =>
      let s := clean_line ln in
      if is_empty s then filter_lines rest
      else if is_noise s then filter_lines rest
      else s :: filter_lines rest
  end.

(** The condition under which a line is taken as the author line. *)
Definition author_line (ln : str) : bool :=
  let names := findall NAME_PAT ln in
  (2 <=? length names)
  || ((length names =? 1) && (contains (py ",") ln || contains (py " and ") (lower ln))).

Definition mem (x : str) (l : list str) : bool := existsb (str_eqb x) l.

(** The loop over [names] with its set [seen] and its list [ordered]. *)
Fixpoint dedup_loop (names : list str) (seen_names ordered : list str) : list str :=
  match names with
  | [] => ordered
  | n :: rest =>
      let nn := strip n in
      if mem nn seen_names then dedup_loop rest seen_names ordered
      else dedup_loop rest (nn :: seen_names) (ordered ++ [nn])
  end.

Definition dedup (names : list str) : list str := dedup_loop names [] [].

(** The second loop of [find_authors], over [filtered[:8]]. *)
Fixpoint authors_of_lines (lines : list str) : str :=
  match lines with
  | [] => []
  | ln :: rest =>
      if author_line ln
      then match dedup (findall NAME_PAT ln) with
           | [] => authors_of_lines rest
           | ordered => join (py ", ") ordered
           end
      else authors_of_lines rest
  end.

Definition filtered_lines (text : str) : list str :=
  filter_lines (firstn 40 (splitlines text)).

Definition find_authors (text : str) : str :=
  authors_of_lines (firstn 8 (filtered_lines text)).

(** ** The record assembler *)

Record record := Record_ {
  filename : str;
  authors : str;
  abstract : str;
  keywords : str;
  notes : str
}.

(** The calls [parse_file] makes, in the order it makes them. *)
Inductive call : Type :=
| CallExtractPdf
| CallExtractDocx
| CallFindAuthors
| CallFindAbstract
| CallFindKeywords.

(** A computation that logs its calls. *)
Definition logged (A : Type) : Type := (list call * A)%type.

Definition ret {A : Type} (a : A) : logged A := ([], a).

Definition bind {A B : Type} (m : logged A) (f : A -> logged B) : logged B :=
  let (l1, a) := m in let (l2, b) := f a in (l1 ++ l2, b).

Definition calling {A : Type} (c : call) (a : A) : logged A := ([c], a).

Notation "x <- m ;; f" := (bind m (fun x => f))
  (at level 61, m at next level, right associativity).

(** The uploaded file and the two readers, [extract_text_from_pdf] and
    [extract_text_from_docx], which hand back the text of the file, or the
    empty text when reading it fails. *)
Variable file : Type.
Variable extract_text_from_pdf : file -> str.
Variable extract_text_from_docx : file -> str.

(** [filename.split(".")[-1].lower()] *)
Definition extension (name : str) : str := lower (last (split (py ".") name) []).

Definition unsupported (name : str) : record :=
  Record_ name [] [] [] (py "Unsupported file type").

Definition parse_file (f : file) (name : str) : logged record :=
  let ext := extension name in
  let assemble := fun text : str =>
    a <- calling CallFindAuthors (find_authors text) ;;
    b <- calling CallFindAbstract (find_abstract text) ;;
    k <- calling CallFindKeywords (find_keywords text) ;;
    let note :=
      if str_eqb ext (py "pdf") && (length (sub_spaces [] false text) <? 200)
      then py "Possible scanned/non-searchable PDF." else [] in
    ret (Record_ name a b k note) in
  if str_eqb ext (py "pdf")
  then text <- calling CallExtractPdf (extract_text_from_pdf f) ;; assemble text
  else if str_eqb ext (py "docx")
  then text <- calling CallExtractDocx (extract_text_from_docx f) ;; assemble text
  else ret (unsupported name).

End Extractor.

(** * What a match is

    The matcher above is the program's operational reading of a pattern.
    [reach r st st'] is the declarative one: [r] can take the position [st]
    to [st'].  The matcher only ever hands its continuation positions that
    are reached in this sense. *)

Section Semantics.

Context {U : UnicodeData}.

Definition group_span (st st' : mstate) : str :=
  firstn (length (ahead st) - length (ahead st')) (ahead st).

Inductive reach : regex -> mstate -> mstate -> Prop :=
| reach_empty st : reach Empty st st
| reach_sym p c t st :
    ahead st = c :: t -> p c = true -> reach (Sym p) st (shift c t st)
| reach_cat a b s1 s2 s3 :
    reach a s1 s2 -> reach b s2 s3 -> reach (Cat a b) s1 s3
| reach_or_l a b s1 s2 : reach a s1 s2 -> reach (Or a b) s1 s2
| reach_or_r a b s1 s2 : reach b s1 s2 -> reach (Or a b) s1 s2
| reach_rep_stop a st : reach (Rep a) st st
| reach_rep_more a s1 s2 s3 :
    reach a s1 s2 -> length (ahead s2) < length (ahead s1) ->
    reach (Rep a) s2 s3 -> reach (Rep a) s1 s3
| reach_grp i a s1 s2 :
    reach a s1 s2 -> reach (Grp i a) s1 (set_group i (group_span s1 s2) s2)
| reach_bol st : seen st = [] -> reach Bol st st
| reach_eol st : ahead st = [] \/ ahead st = [10%N] -> reach Eol st st
| reach_wordb st :
    xorb (word_before st) (word_after st) = true -> reach Wordb st st.

(** Every class of a pattern lies within [q]. *)
Fixpoint classes_within (q : N -> bool) (r : regex) : Prop :=
  match r with
  | Sym p => forall c, p c = true -> q c = true
  | Cat a b | Or a b => classes_within q a /\ classes_within q b
  | Rep a | Grp _ a => classes_within q a
  | Empty | Bol | Eol | Wordb => True
  end.

(** A greedy repetition of one class, written as a loop over the subject. *)
Fixpoint star_sym (p : N -> bool) (k : mstate -> option mstate)
         (sn : str) (ah : str) (gs : list (nat * str)) : option mstate :=
  match ah with
  | c :: t =>
      if p c
      then match star_sym p k (c :: sn) t gs with
           | Some r => Some r
           | None => k (MState sn ah gs)
           end
      else k (MState sn ah gs)
  | [] => k (MState sn [] gs)
  end.

(** [a] occurs in [s] as a run of consecutive code points. *)
Definition occurs_in (a s : str) : Prop := exists pre post, s = pre ++ a ++ post.

(** The names in the order in which they are first met: [seen_names] are
    the ones met before. *)
Fixpoint first_new (names seen_names : list str) : list str :=
  match names with
  | [] => []
  | n :: rest =>
      if mem n seen_names then first_new rest seen_names
      else n :: first_new rest (n :: seen_names)
  end.

(** [x] comes before [y] in [l]. *)
Definition before (x y : str) (l : list str) : Prop :=
  exists l1 l2 l3, l = l1 ++ x :: l2 ++ y :: l3.

(** The first occurrence of [x] in [l] comes before any occurrence of [y]. *)
Definition first_met_before (x y : str) (l : list str) : Prop :=
  exists p q, l = p ++ x :: q /\ ~ In x p /\ ~ In y p.

(** What follows the last "." of a file name; the whole name when it has
    no ".". *)
Definition has_dot (s : str) : bool := existsb (N.eqb 46) s.

Fixpoint after_last_dot (s : str) : str :=
  match s with
  | [] => []
  | c :: t => if has_dot t then after_last_dot t
              else if (c =? 46)%N then t else s
  end.

(** What is left of [s] after the word [w], read without regard to case;
    nothing when [s] does not begin with [w]. *)
Fixpoint after_ilit (w s : str) : option str :=
  match w with
  | [] => Some s
  | p :: w' =>
      match s with
      | c :: t => if ieq p c then after_ilit w' t else None
      | [] => None
      end
  end.

(** The text after the separator, if the text begins with one. *)
Definition drop_dash (rest : str) : str :=
  match rest with
  | c :: t => if is_dash c then t else rest
  | [] => []
  end.

(** The fragment an inline abstract line yields, [rest] being what follows
    the word "abstract": what is left once a separator and whitespace are
    passed, and the last code point of the line when nothing is left. *)
Definition inline_fragment (rest : str) : str :=
  match lstrip_by is_space (drop_dash rest) with
  | [] => [last rest 0%N]
  | fragment => fragment
  end.

(** The inline abstract of a line: after leading whitespace comes the word
    "abstract" in any case, and after it at least one more code point, the
    first of which is not a word character.  The separator is optional. *)
Definition inline_abstract (line : str) : option str :=
  match after_ilit (py "abstract") (lstrip_by is_space line) with
  | Some (c :: t) => if is_word c then None else Some (inline_fragment (c :: t))
  | _ => None
  end.

(** The way the specification describes an inline abstract line: the word,
    then a separator, then text. *)
Definition separated_inline (line : str) : Prop :=
  exists lead word sep text,
    line = lead ++ word ++ sep :: text
    /\ forallb is_space lead = true
    /\ after_ilit (py "abstract") word = Some []
    /\ is_dash sep = true
    /\ text <> [].

(** A line that opens no abstract. *)
Definition no_marker (l : str) : Prop :=
  matches ABSTRACT_INLINE_PAT l = false /\ matches ABSTRACT_HEAD_PAT l = false.

(** Group 1 of a match, if there is a match. *)
Definition og (o : option mstate) : option str := option_map (group 1) o.

(** The end of the inline pattern, from the group on. *)
Definition inline_tail : mstate -> option mstate :=
  run (Cat (Grp 1 (Plus any)) (Cat Eol Empty)) Some.

(** What the end of the inline pattern captures after whitespace [r1]. *)
Definition fragment_after (r1 : str) : option str :=
  match lstrip_by is_space r1 with
  | [] => match r1 with [] => None | _ => Some [last r1 0%N] end
  | fragment => Some fragment
  end.

(** A word without whitespace. *)
Definition spaceless (w : str) : Prop := forallb (fun c => negb (is_space c)) w = true.

(** The code points a name can be made of. *)
Definition name_char (c : N) : bool :=
  is_upper_ascii c || is_lower_ascii c || is_space c || (c =? 46)%N.

(** The rule by which the program takes a line as the author line. *)
Definition qualifies (ln : str) : Prop :=
  let names := findall NAME_PAT ln in
  2 <= length names
  \/ (length names = 1
      /\ (contains (py ",") ln = true \/ contains (py " and ") (lower ln) = true)).

(** The calls of a supported file, [reader] being the reader of its type. *)
Definition supported_calls (reader : call) : list call :=
  [reader; CallFindAuthors; CallFindAbstract; CallFindKeywords].

(** Whitespace in normal form: every whitespace code point is a plain
    space, no two follow each other, and none comes first when
    [after_space] is set. *)
Fixpoint tidy (after_space : bool) (s : str) : bool :=
  match s with
  | [] => true
  | c :: t =>
      if is_space c then negb after_space && (c =? 32)%N && tidy true t
      else tidy false t
  end.

(** The first and the last code point of [s], if any, are outside [p]. *)
Definition trimmed (p : N -> bool) (s : str) : Prop :=
  (forall c t, s = c :: t -> p c = false)
  /\ (forall t c, s = t ++ [c] -> p c = false).

(** A line that opens no keyword list. *)
Definition no_keywords (l : str) : Prop := matches KEYWORDS_PAT l = false.

(** The code point passed last is a lower-case letter. *)
Definition after_lower (st : mstate) : Prop :=
  exists c sn, seen st = c :: sn /\ is_lower_ascii c = true.

(** A cleaned line that is not empty: whitespace in normal form, none at
    either end. *)
Definition solid (e : str) : Prop :=
  tidy false e = true /\ trimmed is_space e /\ e <> [].

(** The code points of [s] that are not whitespace. *)
Definition non_whitespace (s : str) : str :=
  filter (fun c => negb (is_space c)) s.

(** A line that opens the abstract: the inline or the header pattern matches
    it. *)
Definition marker_line (l : str) : Prop :=
  matches ABSTRACT_INLINE_PAT l = true \/ matches ABSTRACT_HEAD_PAT l = true.

(** The position [st] when [z] is put after the subject. *)
Definition extended (z : str) (st : mstate) : mstate :=
  MState (seen st) (ahead st ++ z) (groups st).

(** A pattern without [$]. *)
Fixpoint no_eol (r : regex) : Prop :=
  match r with
  | Eol => False
  | Cat a b | Or a b => no_eol a /\ no_eol b
  | Rep a | Grp _ a => no_eol a
  | Empty | Sym _ | Bol | Wordb => True
  end.

(** [s] begins with a word character. *)
Definition word_first (s : str) : bool :=
  match s with c :: _ => is_word c | [] => false end.

End Semantics.

(** * Inputs used below *)

Definition line_feed : str := [10%N].

(** The rule as the specification words it: two distinct names, or one match
    together with a comma or " and ". *)
Definition qualifies_as_specified {U : UnicodeData} (ln : str) : Prop :=
  let names := findall NAME_PAT ln in
  2 <= length (nodup (list_eq_dec N.eq_dec) names)
  \/ (length names = 1
      /\ (contains (py ",") ln = true \/ contains (py " and ") (lower ln) = true)).

Definition front_matter : str :=
  py "On the theory of graphs" ++ line_feed ++ py "John A. Smith, Maria Lopez".

Definition scenario_A : str :=
  py "Abstract: We present a new method for X." ++ line_feed.

(** A reader that finds the text of a file in the file itself. *)
Definition read_as_is (f : str) : str := f.

(** A title line, a keywords header with one more line of terms, and the
    blank line that ends the list once the text goes on. *)
Definition keywords_block : str :=
  py "On the theory of graphs" ++ line_feed
  ++ py "Keywords: graphs; trees," ++ line_feed
  ++ py "colourings" ++ line_feed.

(** The front matter followed by empty lines, forty-one lines in all. *)
Definition long_front_matter : str := front_matter ++ repeat 10%N 39.

(** An inline abstract that runs on for one more line, a blank line and what
    follows it. *)
Definition two_line_abstract : str :=
  scenario_A ++ py "It is fast." ++ line_feed ++ line_feed ++ py "1 Introduction".

(** The text of a file that holds only whitespace. *)
Definition blank_text : str := [32; 10; 9; 32]%N.

(** * Properties *)

Unset Implicit Arguments.

Ltac inv H := inversion H; subst; clear H.

Section Properties.

Context {U : UnicodeData}.

(** ** The matcher and the declarative reading *)

Lemma rep_loop_sound (a : regex) (k : mstate -> option mstate)
      (body : (mstate -> option mstate) -> mstate -> option mstate) :
  (forall k' st res, body k' st = Some res ->
                     exists st', reach a st st' /\ k' st' = Some res) ->
  forall n st res, rep_loop body k n st = Some res ->
                   exists st', reach (Rep a) st st' /\ k st' = Some res.
Proof.
  intros Hbody. induction n as [|n IH]; intros st res H; simpl in H.
  - exists st. split; [apply reach_rep_stop | exact H].
  - destruct (body _ st) as [r|] eqn:E.
    + injection H as ->. apply Hbody in E as (s2 & R & K).
      destruct (length (ahead s2) <? length (ahead st)) eqn:L; [|discriminate].
      apply IH in K as (s3 & R3 & K3). exists s3. split; [|exact K3].
      eapply reach_rep_more; eauto. now apply Nat.ltb_lt.
    + exists st. split; [apply reach_rep_stop | exact H].
Qed.

(** Whatever the matcher answers, it answers through a position that the
    pattern reaches. *)
Lemma run_sound (r : regex) :
  forall k st res, run r k st = Some res ->
                   exists st', reach r st st' /\ k st' = Some res.
Proof.
  induction r as [ | p | a IHa b IHb | a IHa b IHb | a IHa | i a IHa | | | ];
    intros k st res H; simpl in H.
  - exists st. split; [constructor | exact H].
  - destruct (ahead st) as [|c t] eqn:E; [discriminate|].
    destruct (p c) eqn:Hp; [|discriminate].
    exists (shift c t st). split; [now apply reach_sym | exact H].
  - apply IHa in H as (s2 & R1 & H2). apply IHb in H2 as (s3 & R2 & H3).
    exists s3. split; [eapply reach_cat; eauto | exact H3].
  - destruct (run a k st) as [x|] eqn:E.
    + injection H as ->. apply IHa in E as (s' & R & K).
      exists s'. split; [now apply reach_or_l | exact K].
    + apply IHb in H as (s' & R & K).
      exists s'. split; [now apply reach_or_r | exact K].
  - eapply rep_loop_sound; eauto.
  - apply IHa in H as (s' & R & K).
    exists (set_group i (group_span st s') s'). split; [now apply reach_grp | exact K].
  - destruct (seen st) eqn:E; [|discriminate].
    exists st. split; [now apply reach_bol | exact H].
  - destruct (ahead st) as [|c [|c' t]] eqn:E; try discriminate.
    + exists st. split; [apply reach_eol; now left | exact H].
    + destruct (c =? 10)%N eqn:Hc; [|discriminate]. apply N.eqb_eq in Hc. subst c.
      exists st. split; [apply reach_eol; now right | exact H].
  - destruct (xorb (word_before st) (word_after st)) eqn:E; [|discriminate].
    exists st. split; [now apply reach_wordb | exact H].
Qed.

(** A match only moves forward: what it passes is moved from [ahead] to
    [seen], and lies in every class that contains the classes of the
    pattern. *)
Lemma reach_moves (q : N -> bool) (r : regex) (st st' : mstate) :
  reach r st st' -> classes_within q r ->
  exists xs, ahead st = xs ++ ahead st' /\ seen st' = rev xs ++ seen st
             /\ forallb q xs = true.
Proof.
  induction 1 as [ st | p c t st E Hp | a b s1 s2 s3 _ IH1 _ IH2
                 | a b s1 s2 _ IH | a b s1 s2 _ IH | a st
                 | a s1 s2 s3 _ IH1 _ _ IH2 | i a s1 s2 _ IH
                 | st | st | st ]; simpl; intros Hq;
    try (exists []; auto; fail).
  - exists [c]. simpl. rewrite E, (Hq c Hp). auto.
  - destruct Hq as [Ha Hb].
    destruct (IH1 Ha) as (xs & E1 & S1 & Q1), (IH2 Hb) as (ys & E2 & S2 & Q2).
    exists (xs ++ ys). rewrite E1, E2, S2, S1, rev_app_distr, forallb_app, Q1, Q2.
    now rewrite !app_assoc.
  - apply IH, Hq.
  - apply IH, Hq.
  - destruct (IH1 Hq) as (xs & E1 & S1 & Q1), (IH2 Hq) as (ys & E2 & S2 & Q2).
    exists (xs ++ ys). rewrite E1, E2, S2, S1, rev_app_distr, forallb_app, Q1, Q2.
    now rewrite !app_assoc.
  - apply IH, Hq.
Qed.

Lemma reach_ahead (r : regex) (st st' : mstate) :
  reach r st st' -> exists xs, ahead st = xs ++ ahead st'.
Proof.
  intro H. assert (Hq : classes_within (fun _ => true) r).
  { clear H. induction r; simpl; auto. }
  destruct (reach_moves _ r st st' H Hq) as (xs & E & _). eauto.
Qed.

(** The span of a group is what the group passed. *)
Lemma group_span_app (st st' : mstate) (xs : str) :
  ahead st = xs ++ ahead st' -> group_span st st' = xs.
Proof.
  intro E. unfold group_span. rewrite E, length_app.
  replace (length xs + length (ahead st') - length (ahead st')) with (length xs) by lia.
  rewrite firstn_app, firstn_all, Nat.sub_diag. simpl. apply app_nil_r.
Qed.

(** The equations of the matcher. *)
Lemma run_cat (a b : regex) (k : mstate -> option mstate) (st : mstate) :
  run (Cat a b) k st = run a (run b k) st.
Proof. reflexivity. Qed.

Lemma run_or (a b : regex) (k : mstate -> option mstate) (st : mstate) :
  run (Or a b) k st
  = match run a k st with Some r => Some r | None => run b k st end.
Proof. reflexivity. Qed.

Lemma run_grp (i : nat) (a : regex) (k : mstate -> option mstate) (st : mstate) :
  run (Grp i a) k st
  = run a (fun st' => k (set_group i (group_span st st') st')) st.
Proof. reflexivity. Qed.

Lemma run_sym_cons (p : N -> bool) (k : mstate -> option mstate)
      (sn : str) (c : N) (t : str) (gs : list (nat * str)) :
  run (Sym p) k (MState sn (c :: t) gs)
  = if p c then k (MState (c :: sn) t gs) else None.
Proof. reflexivity. Qed.

Lemma run_sym_nil (p : N -> bool) (k : mstate -> option mstate)
      (sn : str) (gs : list (nat * str)) :
  run (Sym p) k (MState sn [] gs) = None.
Proof. reflexivity. Qed.

Lemma run_empty (k : mstate -> option mstate) (st : mstate) : run Empty k st = k st.
Proof. reflexivity. Qed.

Lemma run_wordb (k : mstate -> option mstate) (st : mstate) :
  run Wordb k st = if xorb (word_before st) (word_after st) then k st else None.
Proof. reflexivity. Qed.

Lemma run_bol_start (k : mstate -> option mstate) (s : str) (gs : list (nat * str)) :
  run Bol k (MState [] s gs) = k (MState [] s gs).
Proof. reflexivity. Qed.

Lemma run_eol_nil (k : mstate -> option mstate) (sn : str) (gs : list (nat * str)) :
  run Eol k (MState sn [] gs) = k (MState sn [] gs).
Proof. reflexivity. Qed.

(** The loop of a repeated class. *)
Lemma rep_loop_sym (p : N -> bool) (k : mstate -> option mstate) (gs : list (nat * str)) :
  forall n sn ah, length ah <= n ->
    rep_loop (run (Sym p)) k n (MState sn ah gs) = star_sym p k sn ah gs.
Proof.
  induction n as [|n IH]; intros sn ah Hn.
  - destruct ah; [reflexivity | simpl in Hn; lia].
  - destruct ah as [|c t]; [reflexivity|].
    simpl. destruct (p c); [|reflexivity].
    unfold shift; simpl.
    replace (length t <? S (length t)) with true by (symmetry; apply Nat.ltb_lt; lia).
    rewrite IH by (simpl in Hn; lia). reflexivity.
Qed.

Lemma run_rep_sym (p : N -> bool) (k : mstate -> option mstate) (st : mstate) :
  run (Rep (Sym p)) k st = star_sym p k (seen st) (ahead st) (groups st).
Proof.
  destruct st as [sn ah gs]. simpl. apply rep_loop_sym. lia.
Qed.

Lemma search_from_reach (r : regex) (s : str) :
  forall must_move sn b e,
    search_from r must_move sn s = Some (b, e) -> reach r b e.
Proof.
  induction s as [|c t IH]; intros mm sn b e H; simpl in H.
  - destruct (run r _ _) as [x|] eqn:E; [|discriminate].
    injection H as <- <-. apply run_sound in E as (st' & R & K).
    destruct (mm && _); [discriminate|]. now injection K as <-.
  - destruct (run r _ _) as [x|] eqn:E.
    + injection H as <- <-. apply run_sound in E as (st' & R & K).
      destruct (mm && _); [discriminate|]. now injection K as <-.
    + eapply IH; eauto.
Qed.

(** ** The bounds on the loops are never reached *)

Lemma run_refuses (r : regex) (k : mstate -> option mstate) (st : mstate) :
  (forall x, k x = None) -> run r k st = None.
Proof.
  intro Hk. destruct (run r k st) as [res|] eqn:E; [|reflexivity].
  apply run_sound in E as (st' & _ & E). now rewrite Hk in E.
Qed.

Lemma rep_loop_ext (body : (mstate -> option mstate) -> mstate -> option mstate) :
  (forall k1 k2 st, (forall x, k1 x = k2 x) -> body k1 st = body k2 st) ->
  forall n k1 k2 st, (forall x, k1 x = k2 x) ->
                     rep_loop body k1 n st = rep_loop body k2 n st.
Proof.
  intros Hbody. induction n as [|n IH]; intros k1 k2 st Hk; simpl.
  - apply Hk.
  - rewrite Hk.
    assert (E : body (fun st' => if length (ahead st') <? length (ahead st)
                                 then rep_loop body k1 n st' else None) st
                = body (fun st' => if length (ahead st') <? length (ahead st)
                                   then rep_loop body k2 n st' else None) st).
    { apply Hbody. intro x.
      destruct (length (ahead x) <? length (ahead st)); [now apply IH | reflexivity]. }
    now rewrite E.
Qed.

(** The matcher reads its continuation only through its answers. *)
Lemma run_ext (r : regex) :
  forall k1 k2 st, (forall x, k1 x = k2 x) -> run r k1 st = run r k2 st.
Proof.
  induction r as [ | p | a IHa b IHb | a IHa b IHb | a IHa | i a IHa | | | ];
    intros k1 k2 st Hk; simpl.
  - apply Hk.
  - destruct (ahead st) as [|c t]; [reflexivity|]. destruct (p c); [apply Hk | reflexivity].
  - apply IHa. intro x. now apply IHb.
  - rewrite (IHa k1 k2 st Hk), (IHb k1 k2 st Hk). reflexivity.
  - apply rep_loop_ext; assumption.
  - apply IHa. intro x. apply Hk.
  - destruct (seen st); [apply Hk | reflexivity].
  - destruct (ahead st) as [|c [|c' t]]; [apply Hk | | reflexivity].
    destruct (c =? 10)%N; [apply Hk | reflexivity].
  - destruct (xorb _ _); [apply Hk | reflexivity].
Qed.

(** A repetition gives the same answer under any bound that is at least the
    number of code points ahead. *)
Lemma rep_loop_bound (a : regex) (k : mstate -> option mstate) :
  forall n m st, length (ahead st) <= n -> length (ahead st) <= m ->
                 rep_loop (run a) k n st = rep_loop (run a) k m st.
Proof.
  assert (Hend : forall n st, length (ahead st) = 0 ->
                              rep_loop (run a) k n st = k st).
  { intros [|n] st H0; simpl; [reflexivity|].
    rewrite run_refuses; [reflexivity|].
    intro x. rewrite H0. reflexivity. }
  induction n as [|n IH]; intros m st Hn Hm.
  - rewrite (Hend m) by lia. reflexivity.
  - destruct m as [|m]; [rewrite (Hend (S n)) by lia; reflexivity|].
    simpl.
    assert (E : run a (fun st' => if length (ahead st') <? length (ahead st)
                                  then rep_loop (run a) k n st' else None) st
                = run a (fun st' => if length (ahead st') <? length (ahead st)
                                    then rep_loop (run a) k m st' else None) st).
    { apply run_ext. intro x.
      destruct (length (ahead x) <? length (ahead st)) eqn:L; [|reflexivity].
      apply Nat.ltb_lt in L. apply IH; lia. }
    now rewrite E.
Qed.

Lemma search_from_bounds (r : regex) (s : str) :
  forall must_move sn b e,
    search_from r must_move sn s = Some (b, e) ->
    length (ahead b) <= length s
    /\ (must_move = true -> length (ahead e) = length (ahead b) ->
        length (ahead b) < length s).
Proof.
  assert (Hfirst : forall mm sn s0 x,
            run r (fun st' => if mm && (length (ahead st') =? length s0)
                              then None else Some st') (MState sn s0 []) = Some x ->
            mm = true -> length (ahead x) = length s0 -> False).
  { intros mm sn s0 x E -> Hlen. apply run_sound in E as (st' & _ & E).
    simpl in E. destruct (length (ahead st') =? length s0) eqn:L; [discriminate|].
    injection E as <-. apply Nat.eqb_neq in L. contradiction. }
  induction s as [|c t IH]; intros mm sn b e H; simpl in H.
  - destruct (run r _ _) as [x|] eqn:E; [|discriminate]. injection H as <- <-.
    split; [simpl; lia|]. intros Hmm Hlen. exfalso.
    exact (Hfirst mm sn [] x E Hmm Hlen).
  - destruct (run r _ _) as [x|] eqn:E.
    + injection H as <- <-. split; [simpl; lia|].
      intros Hmm Hlen. exfalso. exact (Hfirst mm sn (c :: t) x E Hmm Hlen).
    + apply IH in H as [H _]. simpl. split; lia.
Qed.

Lemma findall_from_bound (r : regex) :
  forall f1 f2 (must_move : bool) sn s,
    2 * length s + (if must_move then 0 else 1) < f1 ->
    2 * length s + (if must_move then 0 else 1) < f2 ->
    findall_from r f1 must_move sn s = findall_from r f2 must_move sn s.
Proof.
  induction f1 as [|f1 IH]; intros f2 mm sn s H1 H2; [lia|].
  destruct f2 as [|f2]; [lia|]. simpl.
  destruct (search_from r mm sn s) as [[b e]|] eqn:E; [|reflexivity].
  f_equal. pose proof (search_from_bounds r s mm sn b e E) as [Hb Hmm].
  apply search_from_reach in E. apply reach_ahead in E as (xs & Ex).
  assert (Hle : length (ahead e) <= length (ahead b)).
  { rewrite Ex, length_app. lia. }
  destruct (length (ahead e) =? length (ahead b)) eqn:L.
  - apply Nat.eqb_eq in L. destruct mm.
    + specialize (Hmm eq_refl L). apply IH; lia.
    + apply IH; lia.
  - apply Nat.eqb_neq in L. apply IH; destruct mm; lia.
Qed.

(** [findall] does not run out of steps: more steps find the same names. *)
Lemma findall_bound (r : regex) (s : str) (extra : nat) :
  findall_from r (2 * length s + 2 + extra) false [] s = findall r s.
Proof. unfold findall. apply findall_from_bound; lia. Qed.

(** ** Equality of strings *)

Lemma str_eqb_eq (a b : str) : str_eqb a b = true <-> a = b.
Proof.
  unfold str_eqb. destruct (list_eq_dec N.eq_dec a b); split; congruence.
Qed.

Lemma str_eqb_neq (a b : str) : str_eqb a b = false <-> a <> b.
Proof.
  unfold str_eqb. destruct (list_eq_dec N.eq_dec a b); split; congruence.
Qed.

(** ** Stripping *)

Lemma lstrip_by_split (p : N -> bool) (s : str) :
  exists pre, s = pre ++ lstrip_by p s /\ forallb p pre = true.
Proof.
  induction s as [|c t IH]; simpl.
  - exists []. auto.
  - destruct (p c) eqn:Hc.
    + destruct IH as (pre & Heq & Hpre). exists (c :: pre). simpl.
      rewrite Hc, Hpre. split; [f_equal; exact Heq | reflexivity].
    + exists []. auto.
Qed.

Lemma lstrip_by_keeps_end (p : N -> bool) (l : str) (c : N) :
  p c = false -> exists l', lstrip_by p (l ++ [c]) = l' ++ [c].
Proof.
  intro Hc. induction l as [|x l IH]; simpl.
  - rewrite Hc. exists []. reflexivity.
  - destruct (p x); [exact IH | exists (x :: l); reflexivity].
Qed.

Lemma strip_by_split (p : N -> bool) (s : str) :
  exists pre post, s = pre ++ strip_by p s ++ post
                   /\ forallb p pre = true /\ forallb p post = true.
Proof.
  unfold strip_by.
  destruct (lstrip_by_split p s) as (pre & Hs & Hpre).
  destruct (lstrip_by_split p (rev (lstrip_by p s))) as (q & Hr & Hq).
  exists pre, (rev q). repeat split; trivial.
  - rewrite Hs at 1. f_equal.
    apply (f_equal (@rev N)) in Hr. rewrite rev_involutive, rev_app_distr in Hr.
    exact Hr.
  - rewrite forallb_forall in *. intros x Hx. apply Hq. now apply in_rev.
Qed.

Lemma strip_by_head (p : N -> bool) (c : N) (t : str) :
  p c = false -> exists t', strip_by p (c :: t) = c :: t'.
Proof.
  intro Hc. unfold strip_by. simpl. rewrite Hc. simpl.
  destruct (lstrip_by_keeps_end p (rev t) c Hc) as (l' & ->).
  rewrite rev_app_distr. simpl. eauto.
Qed.

Lemma join_cons (sep p : str) (rest : list str) :
  rest <> [] -> join sep (p :: rest) = p ++ sep ++ join sep rest.
Proof. destruct rest; [congruence | reflexivity]. Qed.

(** ** Keywords *)

Lemma keyword_parts_spec (kws p : str) :
  In p (keyword_parts kws) <->
  exists cand, In cand (split_class is_semi_or_comma [] kws)
               /\ p = strip_chars (py " .;") cand /\ p <> [].
Proof.
  unfold keyword_parts. rewrite in_map_iff. split.
  - intros (cand & <- & Hin). apply filter_In in Hin as [Hin Hne].
    exists cand. repeat split; trivial.
    destruct (strip_chars (py " .;") cand); [discriminate | congruence].
  - intros (cand & Hin & -> & Hne). exists cand. split; trivial.
    apply filter_In. split; trivial.
    destruct (strip_chars (py " .;") cand); [congruence | reflexivity].
Qed.

(** C7. On the line "Keywords: machine learning; graphs, optimization."
    [find_keywords] returns "machine learning, graphs, optimization"; and in
    general the terms it joins with ", " are exactly the candidates cut at
    semicolons and commas, each stripped of surrounding spaces, periods and
    semicolons, the empty ones left out. *)
Theorem find_keywords_scenario_B :
  find_keywords (py "Keywords: machine learning; graphs, optimization.")
  = py "machine learning, graphs, optimization"
  /\ keyword_parts (py "machine learning; graphs, optimization.")
     = [py "machine learning"; py "graphs"; py "optimization"]
  /\ forall kws p,
       In p (keyword_parts kws) <->
       exists cand, In cand (split_class is_semi_or_comma [] kws)
                    /\ p = strip_chars (py " .;") cand /\ p <> [].
Proof.
  split; [vm_compute; reflexivity |].
  split; [vm_compute; reflexivity |].
  exact keyword_parts_spec.
Qed.

(** ** The boundary pattern and numbered headings *)

Lemma numbered_heading_no_boundary (rest : str) :
  matches NEXT_SECTION_PAT (py "1. " ++ rest) = false.
Proof. reflexivity. Qed.

(** C1, at the input "Abstract" / "We study graphs." / "1. Introduction" /
    "Graphs are everywhere.": a line that begins with "1." and a space is
    not taken as a boundary (the pattern asks for a word boundary right
    after the period), so the heading and the body after it end up in the
    abstract.  The forms "1 Introduction" and "1.Introduction" are taken as
    boundaries. *)
Theorem numbered_heading_spills_into_abstract :
  (forall rest, stops (py "1. " ++ rest) = false)
  /\ stops (py "1 Introduction") = true
  /\ stops (py "1.Introduction") = true
  /\ find_abstract
       (py "Abstract" ++ line_feed ++ py "We study graphs." ++ line_feed
        ++ py "1. Introduction" ++ line_feed ++ py "Graphs are everywhere.")
     = py "We study graphs. 1. Introduction Graphs are everywhere.".
Proof.
  split.
  - intro rest. unfold stops. rewrite numbered_heading_no_boundary.
    destruct (strip_by_head is_space 49%N (py ". " ++ rest) eq_refl) as (t' & Ht).
    unfold strip. change (py "1. " ++ rest) with (49%N :: py ". " ++ rest).
    rewrite Ht. reflexivity.
  - repeat split; vm_compute; reflexivity.
Qed.

(** ** Lines *)

Lemma splitlines_from_cons (cur : str) (c : N) (t : str) :
  splitlines_from cur (c :: t)
  = if (c =? 13)%N
    then match t with
         | c' :: t' => if (c' =? 10)%N
                       then rev cur :: splitlines_from [] t'
                       else rev cur :: splitlines_from [] t
         | [] => [rev cur]
         end
    else if is_linebreak c then rev cur :: splitlines_from [] t
    else splitlines_from (c :: cur) t.
Proof. reflexivity. Qed.

Lemma splitlines_from_app (nl : N) (more : str) :
  is_linebreak nl = true -> nl <> 13%N ->
  forall n T cur, length T <= n ->
    splitlines_from cur (T ++ nl :: more)
    = splitlines_from cur (T ++ [nl]) ++ splitlines_from [] more.
Proof.
  intros Hnl H13. apply N.eqb_neq in H13.
  assert (Hbase : forall cur, splitlines_from cur (nl :: more)
                              = splitlines_from cur [nl] ++ splitlines_from [] more).
  { intro cur. rewrite !splitlines_from_cons, H13, Hnl. reflexivity. }
  induction n as [|n IH]; intros T cur Hlen.
  - destruct T; [apply Hbase | simpl in Hlen; lia].
  - destruct T as [|c t]; [apply Hbase|].
    simpl in Hlen. cbn [app]. rewrite !splitlines_from_cons.
    destruct (c =? 13)%N.
    + destruct t as [|c' t']; cbn [app].
      * destruct (nl =? 10)%N; [reflexivity|].
        cbn [app]. f_equal. apply Hbase.
      * destruct (c' =? 10)%N; cbn [app]; f_equal.
        -- apply IH. simpl in Hlen. lia.
        -- apply (IH (c' :: t')). lia.
    + destruct (is_linebreak c); [cbn [app]; f_equal|]; apply IH; lia.
Qed.

(** Text appended after a complete line adds lines and changes none. *)
Lemma splitlines_app (T more : str) (nl : N) :
  is_linebreak nl = true -> nl <> 13%N ->
  splitlines ((T ++ [nl]) ++ more) = splitlines (T ++ [nl]) ++ splitlines more.
Proof.
  intros Hnl H13. unfold splitlines. rewrite <- app_assoc. simpl.
  now apply (splitlines_from_app nl more Hnl H13 (length T)).
Qed.

(** ** Accumulation *)

Lemma accumulate_stops_at (body : list str) (stop : str) (tail : list str) :
  stops stop = true ->
  accumulate (body ++ stop :: tail) = accumulate (body ++ [stop]).
Proof.
  intro Hs. induction body as [|l body IH]; simpl.
  - now rewrite Hs.
  - destruct (stops l); [reflexivity | now rewrite IH].
Qed.

Lemma abstract_lines_skip (pre rest : list str) :
  Forall no_marker pre -> abstract_lines (pre ++ rest) = abstract_lines rest.
Proof.
  induction 1 as [|l pre [Hi Hh] _ IH]; simpl; [reflexivity|].
  unfold matches in Hi.
  destruct (re_match ABSTRACT_INLINE_PAT l); [discriminate|].
  rewrite Hh. exact IH.
Qed.

Lemma abstract_lines_marker (hdr : str) (rest : list str) :
  matches ABSTRACT_INLINE_PAT hdr = true \/ matches ABSTRACT_HEAD_PAT hdr = true ->
  exists seed, forall rest, abstract_lines (hdr :: rest) = seed ++ accumulate rest.
Proof.
  intros H. simpl.
  destruct (re_match ABSTRACT_INLINE_PAT hdr) as [m|] eqn:E.
  - exists [clean_line (group 1 m)]. reflexivity.
  - destruct (matches ABSTRACT_HEAD_PAT hdr) eqn:E2.
    + exists []. reflexivity.
    + destruct H as [H|H]; [|discriminate].
      unfold matches in H. rewrite E in H. discriminate.
Qed.

Lemma boundary_stops (l : str) :
  strip l = [] \/ matches NEXT_SECTION_PAT l = true -> stops l = true.
Proof.
  unfold stops. intros [H | H]; rewrite H; [reflexivity | apply orb_true_r].
Qed.

(** C4. When the first abstract marker of a text is followed, some lines
    later, by a blank line (or by a line that the boundary pattern takes
    as the next section), and the text ends with a complete line, then
    whatever is appended to the text leaves the extracted abstract as it
    was. *)
Theorem abstract_stops_at_blank_line
        (T more : str) (nl : N) (pre : list str) (hdr : str)
        (body : list str) (blank : str) (tail : list str) :
  is_linebreak nl = true -> nl <> 13%N ->
  splitlines (T ++ [nl]) = pre ++ hdr :: body ++ blank :: tail ->
  Forall no_marker pre ->
  matches ABSTRACT_INLINE_PAT hdr = true \/ matches ABSTRACT_HEAD_PAT hdr = true ->
  strip blank = [] \/ matches NEXT_SECTION_PAT blank = true ->
  find_abstract ((T ++ [nl]) ++ more) = find_abstract (T ++ [nl]).
Proof.
  intros Hnl H13 Hlines Hpre Hhdr Hblank. apply boundary_stops in Hblank.
  unfold find_abstract. rewrite (splitlines_app T more nl Hnl H13), Hlines.
  rewrite <- app_assoc.
  rewrite (abstract_lines_skip pre _ Hpre), (abstract_lines_skip pre _ Hpre).
  destruct (abstract_lines_marker hdr [] Hhdr) as (seed & Hseed).
  rewrite <- app_comm_cons, !Hseed, <- app_assoc, <- app_comm_cons.
  rewrite (accumulate_stops_at body blank (tail ++ splitlines more)) by assumption.
  rewrite (accumulate_stops_at body blank tail) by assumption.
  reflexivity.
Qed.

(** A header line that ends with its separator, such as "Abstract:", is a
    header for [ABSTRACT_HEAD_PAT]; but the inline pattern is tried first
    and takes the separator as its text. *)
Lemma header_with_separator_taken_inline :
  matches ABSTRACT_HEAD_PAT (py "Abstract:") = true
  /\ option_map (group 1) (re_match ABSTRACT_INLINE_PAT (py "Abstract:")) = Some (py ":")
  /\ find_abstract (py "Abstract:" ++ line_feed ++ py "We present X.")
     = py ": We present X.".
Proof. repeat split; vm_compute; reflexivity. Qed.

(** ** The inline abstract pattern *)

Lemma ieq_cases (p c : N) :
  ieq p c = true ->
  c = p \/ c = (p - 32)%N \/ c = 304%N \/ c = 305%N \/ c = 383%N \/ c = 8490%N.
Proof.
  unfold ieq. rewrite !orb_true_iff, !andb_true_iff, !orb_true_iff, !N.eqb_eq.
  intuition auto.
Qed.

Lemma space_not_a (c : N) : is_space c = true -> ieq 97 c = false.
Proof.
  intro H. destruct (ieq 97 c) eqn:E; [|reflexivity].
  apply ieq_cases in E.
  destruct E as [-> | [-> | [-> | [-> | [-> | ->]]]]]; vm_compute in H; discriminate.
Qed.

Lemma final_t_is_word (c : N) : ieq 116 c = true -> is_word c = true.
Proof.
  intro E. pose proof (ieq_cases _ _ E) as H.
  destruct H as [-> | [-> | [-> | [-> | [-> | ->]]]]];
    try reflexivity; vm_compute in E; discriminate.
Qed.

Lemma dash_not_space (c : N) : is_dash c = true -> is_space c = false.
Proof.
  unfold is_dash. rewrite !orb_true_iff, !N.eqb_eq.
  intros [[[-> | ->] | ->] | ->]; reflexivity.
Qed.

(** Leading whitespace before something that cannot begin with whitespace
    is passed in full. *)
Lemma star_sym_lead (k : mstate -> option mstate) :
  (forall sn c t gs, is_space c = true -> k (MState sn (c :: t) gs) = None) ->
  forall s sn gs, exists sn',
    star_sym is_space k sn s gs = k (MState sn' (lstrip_by is_space s) gs).
Proof.
  intros Hk. induction s as [|c t IH]; intros sn gs; simpl.
  - eauto.
  - destruct (is_space c) eqn:Hc; [|eauto].
    destruct (IH (c :: sn) gs) as (sn' & E). exists sn'. rewrite E.
    destruct (k (MState sn' (lstrip_by is_space t) gs)); [reflexivity|].
    now apply Hk.
Qed.

(** A literal word read without regard to case. *)
Lemma run_ilit_of (w : str) (k : mstate -> option mstate) :
  forall s sn gs,
    run (ilit_of w) k (MState sn s gs)
    = match after_ilit w s with
      | Some rest => k (MState (rev (firstn (length w) s) ++ sn) rest gs)
      | None => None
      end.
Proof.
  induction w as [|p w IH]; intros s sn gs; [reflexivity|].
  cbn [ilit_of run ahead after_ilit]. destruct s as [|c t]; [reflexivity|].
  destruct (ieq p c); [|reflexivity].
  unfold shift. cbn [seen groups]. rewrite IH.
  destruct (after_ilit w t); [|reflexivity].
  simpl. now rewrite <- app_assoc.
Qed.

Lemma after_ilit_last (w : str) :
  forall s rest p, after_ilit (w ++ [p]) s = Some rest ->
    exists c sn', rev (firstn (length (w ++ [p])) s) = c :: sn' /\ ieq p c = true.
Proof.
  induction w as [|q w IH]; intros s rest p H; simpl in *.
  - destruct s as [|c t]; [discriminate|]. destruct (ieq p c) eqn:E; [|discriminate].
    exists c, []. auto.
  - destruct s as [|c t]; [discriminate|]. destruct (ieq q c); [|discriminate].
    destruct (IH t rest p H) as (c' & sn' & E & Hc). simpl. rewrite E.
    exists c', (sn' ++ [c]). auto.
Qed.

Lemma star_sym_all (p : N -> bool) (k : mstate -> option mstate) (gs : list (nat * str)) :
  forall t sn r, forallb p t = true ->
    k (MState (rev t ++ sn) [] gs) = Some r -> star_sym p k sn t gs = Some r.
Proof.
  induction t as [|x t IH]; intros sn r Hall Hk; simpl in *; [exact Hk|].
  apply andb_prop in Hall as [Hx Hall]. rewrite Hx.
  rewrite (IH (x :: sn) r Hall); [reflexivity|]. now rewrite <- app_assoc in Hk.
Qed.

Lemma no_newline_forallb (a : str) : ~ In 10%N a -> forallb not_newline a = true.
Proof.
  intro H. apply forallb_forall. intros x Hx. unfold not_newline.
  destruct (x =? 10)%N eqn:E; [|reflexivity].
  apply N.eqb_eq in E. subst. contradiction.
Qed.

Lemma inline_tail_spec (a : str) (sn : str) (gs : list (nat * str)) :
  ~ In 10%N a ->
  og (inline_tail (MState sn a gs)) = match a with [] => None | _ => Some a end.
Proof.
  intro Ha. destruct a as [|c t]; [reflexivity|].
  apply no_newline_forallb in Ha. simpl in Ha. apply andb_prop in Ha as [Hc Ht].
  unfold inline_tail, Plus, any.
  rewrite run_cat, run_grp, run_cat, run_sym_cons, Hc, run_rep_sym.
  cbn [seen ahead groups].
  erewrite star_sym_all; [| exact Ht |].
  2:{ unfold group_span. cbn [ahead set_group seen groups]. rewrite Nat.sub_0_r.
      unfold set_group. cbn [ahead seen groups].
      rewrite run_cat, run_eol_nil. reflexivity. }
  unfold og, option_map, group, set_group. cbn [groups lookup_group Nat.eqb].
  now rewrite firstn_all.
Qed.

Lemma last_cons (c d : N) (t : str) : t <> [] -> last (c :: t) d = last t d.
Proof. destruct t; [congruence | reflexivity]. Qed.

Lemma fragment_after_none (r : str) : fragment_after r = None -> r = [].
Proof.
  unfold fragment_after. destruct (lstrip_by is_space r); [|discriminate].
  destruct r; [reflexivity | discriminate].
Qed.

(** Whitespace before the group: all of it is passed when text follows;
    when none does, the last whitespace is given back to the group. *)
Lemma spaces_then_tail (r1 : str) :
  ~ In 10%N r1 ->
  forall sn gs, og (star_sym is_space inline_tail sn r1 gs) = fragment_after r1.
Proof.
  induction r1 as [|c t IH]; intros Hn sn gs.
  - reflexivity.
  - assert (Ht : ~ In 10%N t) by (intro; apply Hn; now right).
    cbn [star_sym]. unfold fragment_after. cbn [lstrip_by].
    destruct (is_space c) eqn:Hc.
    + specialize (IH Ht (c :: sn) gs).
      destruct (star_sym is_space inline_tail (c :: sn) t gs) as [r|] eqn:Es.
      * rewrite IH. unfold fragment_after.
        destruct (lstrip_by is_space t) eqn:El; [|reflexivity].
        destruct t as [|x t']; [discriminate IH|].
        now rewrite (last_cons c 0%N (x :: t')) by discriminate.
      * symmetry in IH. apply fragment_after_none in IH. subst t.
        rewrite inline_tail_spec by assumption. reflexivity.
    + now rewrite inline_tail_spec by assumption.
Qed.

Lemma after_word_spec (rest : str) (sn : str) (gs : list (nat * str)) :
  ~ In 10%N rest ->
  og (run (Cat (Opt dash) (Cat spaces (Cat (Grp 1 (Plus any)) (Cat Eol Empty))))
          Some (MState sn rest gs))
  = match rest with [] => None | _ => Some (inline_fragment rest) end.
Proof.
  intro Hn. rewrite run_cat. unfold Opt, dash. rewrite run_or, run_empty.
  assert (Hsp : forall st, run (Cat spaces (Cat (Grp 1 (Plus any)) (Cat Eol Empty))) Some st
                           = star_sym is_space inline_tail (seen st) (ahead st) (groups st)).
  { intro st. rewrite run_cat. unfold spaces. now rewrite run_rep_sym. }
  destruct rest as [|c t].
  - rewrite run_sym_nil, Hsp. reflexivity.
  - assert (Ht : ~ In 10%N t) by (intro; apply Hn; now right).
    rewrite run_sym_cons. unfold inline_fragment. cbn [drop_dash].
    destruct (is_dash c) eqn:Hd.
    + rewrite !Hsp. cbn [seen ahead groups].
      pose proof (spaces_then_tail t Ht (c :: sn) gs) as E1.
      destruct (star_sym is_space inline_tail (c :: sn) t gs) as [r|] eqn:Es.
      * rewrite E1. unfold fragment_after.
        destruct (lstrip_by is_space t) eqn:El; [|reflexivity].
        destruct t as [|x t']; [discriminate E1|].
        now rewrite (last_cons c 0%N (x :: t')) by discriminate.
      * symmetry in E1. apply fragment_after_none in E1. subst t.
        rewrite spaces_then_tail by assumption.
        unfold fragment_after. cbn [lstrip_by]. now rewrite (dash_not_space c Hd).
    + rewrite Hsp. cbn [seen ahead groups]. rewrite spaces_then_tail by assumption.
      unfold fragment_after. destruct (lstrip_by is_space (c :: t)); reflexivity.
Qed.

Lemma after_ilit_suffix (w : str) :
  forall s rest, after_ilit w s = Some rest ->
                 exists m, s = m ++ rest /\ length m = length w.
Proof.
  induction w as [|p w IH]; intros s rest H; simpl in H.
  - injection H as <-. now exists [].
  - destruct s as [|c t]; [discriminate|]. destruct (ieq p c); [|discriminate].
    destruct (IH t rest H) as (m & -> & Hm). exists (c :: m). simpl. auto.
Qed.

(** What the inline pattern does on a line. *)
Lemma inline_pattern_spec (line : str) :
  ~ In 10%N line ->
  og (re_match ABSTRACT_INLINE_PAT line) = inline_abstract line.
Proof.
  intro Hn. unfold re_match, ABSTRACT_INLINE_PAT. cbn [cat].
  rewrite run_cat, run_bol_start, run_cat. unfold spaces at 1. rewrite run_rep_sym.
  cbn [seen ahead groups].
  match goal with |- og (star_sym is_space ?k _ _ _) = _ =>
    destruct (star_sym_lead k) with (s := line) (sn := @nil N) (gs := @nil (nat * str))
      as (sn' & ->)
  end.
  { intros sn c t gs Hc. rewrite run_cat. unfold ilit.
    change (py "abstract") with (97%N :: py "bstract"). cbn [ilit_of].
    now rewrite run_cat, run_sym_cons, space_not_a. }
  rewrite run_cat. unfold ilit at 1. rewrite run_ilit_of. unfold inline_abstract.
  destruct (lstrip_by_split is_space line) as (lead & Eline & _).
  destruct (after_ilit (py "abstract") (lstrip_by is_space line)) as [rest|] eqn:Ea;
    [|reflexivity].
  destruct (after_ilit_suffix _ _ _ Ea) as (m & Em & _).
  assert (Hrest : ~ In 10%N rest).
  { intro Hin. apply Hn. rewrite Eline, Em. apply in_or_app. right.
    apply in_or_app. now right. }
  change (py "abstract") with (py "abstrac" ++ [116%N]) in Ea |- *.
  destruct (after_ilit_last _ _ _ _ Ea) as (c0 & sn0 & -> & Hc0).
  rewrite run_cat, run_wordb. unfold word_before, word_after. cbn [seen ahead app].
  rewrite (final_t_is_word c0 Hc0).
  destruct rest as [|c t].
  - cbn [xorb]. now rewrite after_word_spec.
  - destruct (is_word c); cbn [xorb negb]; [reflexivity|].
    now rewrite after_word_spec.
Qed.

(** ** Where a word of the output comes from *)

Lemma occurs_in_nil (s : str) : occurs_in [] s.
Proof. now exists [], s. Qed.

Lemma occurs_in_part (w a pre post : str) :
  occurs_in w a -> occurs_in w (pre ++ a ++ post).
Proof.
  intros (l & r & ->). exists (pre ++ l), (r ++ post). now rewrite <- !app_assoc.
Qed.

Lemma occurs_in_cons (w : str) (c : N) (t : str) :
  occurs_in w t -> occurs_in w (c :: t).
Proof.
  intro H. apply (occurs_in_part w t [c] []) in H. now rewrite app_nil_r in H.
Qed.

Lemma occurs_in_strip_by (p : N -> bool) (w s : str) :
  occurs_in w (strip_by p s) -> occurs_in w s.
Proof.
  destruct (strip_by_split p s) as (pre & post & E & _ & _).
  intro H. rewrite E. now apply occurs_in_part.
Qed.

Lemma occurs_in_lstrip_by (p : N -> bool) (w s : str) :
  occurs_in w (lstrip_by p s) -> occurs_in w s.
Proof.
  destruct (lstrip_by_split p s) as (pre & E & _).
  intro H. rewrite E. apply (occurs_in_part w _ pre []) in H.
  now rewrite app_nil_r in H.
Qed.

(** A word that does not hold [c] and occurs in [a ++ c :: b] occurs in [a]
    or in [b]. *)
Lemma occurs_in_around (w a b : str) (c : N) :
  ~ In c w -> occurs_in w (a ++ c :: b) -> occurs_in w a \/ occurs_in w b.
Proof.
  intros Hc (pre & post & E). symmetry in E.
  apply app_eq_app in E as (l & [[E1 E2] | [E1 E2]]).
  - right. destruct l as [|x l]; simpl in E2.
    + destruct w as [|y w]; [apply occurs_in_nil|].
      injection E2 as <- _. exfalso. apply Hc. now left.
    + injection E2 as _ ->. now exists l, post.
  - left. apply app_eq_app in E2 as (l2 & [[E3 E4] | [E3 E4]]).
    + destruct l2 as [|x l2]; simpl in E4.
      * rewrite app_nil_r in E3. subst. exists pre, []. now rewrite app_nil_r.
      * injection E4 as <- _. exfalso. apply Hc. subst w.
        apply in_or_app. right. now left.
    + subst. exists pre, l2. reflexivity.
Qed.

Lemma occurs_in_join (w : str) (parts : list str) :
  w <> [] -> ~ In 32%N w ->
  occurs_in w (join (py " ") parts) -> exists part, In part parts /\ occurs_in w part.
Proof.
  intros Hw Hsp. induction parts as [|p rest IH]; intro H.
  - destruct H as (pre & post & E). simpl in E.
    destruct pre; [destruct w; [congruence | discriminate] | discriminate].
  - destruct rest as [|q rest].
    + exists p. split; [now left | exact H].
    + rewrite join_cons in H by discriminate.
      change (py " " ++ join (py " ") (q :: rest))
        with (32%N :: join (py " ") (q :: rest)) in H.
      apply occurs_in_around in H as [H | H]; [| | exact Hsp].
      * exists p. split; [now left | exact H].
      * destruct (IH H) as (part & Hin & Hocc). exists part. split; [now right | exact Hocc].
Qed.

Lemma spaceless_cons (x : N) (w : str) :
  spaceless (x :: w) -> is_space x = false /\ spaceless w.
Proof.
  unfold spaceless. simpl. intro H. apply andb_prop in H as [Hx Hw].
  split; [now apply negb_true_iff | exact Hw].
Qed.

Lemma spaceless_no_space (w : str) : spaceless w -> ~ In 32%N w.
Proof.
  unfold spaceless. rewrite forallb_forall. intros H Hin. apply H in Hin. discriminate.
Qed.

Lemma sub_spaces_prefix (l : str) :
  forall w post, spaceless w -> sub_spaces (py " ") false l = w ++ post ->
                 exists post', l = w ++ post'.
Proof.
  induction l as [|c t IH]; intros w post Hw E.
  - destruct w; [now exists [] | discriminate].
  - destruct w as [|x w]; [now exists (c :: t)|].
    apply spaceless_cons in Hw as [Hx Hw]. simpl in E.
    destruct (is_space c) eqn:Hc.
    + injection E as <- _. discriminate.
    + injection E as <- E. destruct (IH w post Hw E) as (post' & ->). now exists post'.
Qed.

(** Collapsing whitespace creates no word: a word without whitespace that
    occurs in the collapsed line occurs in the line. *)
Lemma occurs_in_sub_spaces (l : str) :
  forall in_run w, spaceless w ->
    occurs_in w (sub_spaces (py " ") in_run l) -> occurs_in w l.
Proof.
  induction l as [|c t IH]; intros b w Hw H; [exact H|].
  destruct w as [|x w]; [apply occurs_in_nil|].
  pose proof (spaceless_cons _ _ Hw) as [Hx _].
  simpl in H. destruct (is_space c) eqn:Hc.
  - apply occurs_in_cons. destruct b; [now apply (IH true)|].
    destruct H as ([|y pre] & post & E); simpl in E.
    + injection E as <- _. discriminate.
    + injection E as _ E. apply (IH true); [exact Hw | now exists pre, post].
  - destruct H as ([|y pre] & post & E); simpl in E.
    + injection E as <- E.
      apply spaceless_cons in Hw as [_ Hw].
      destruct (sub_spaces_prefix t w post Hw E) as (post' & ->).
      now exists [], post'.
    + injection E as _ E. apply occurs_in_cons, (IH false); [exact Hw | now exists pre, post].
Qed.

Lemma occurs_in_clean_line (w l : str) :
  spaceless w -> occurs_in w (clean_line l) -> occurs_in w l.
Proof.
  intros Hw H. unfold clean_line, strip in H.
  apply occurs_in_strip_by in H. eapply occurs_in_sub_spaces; eauto.
Qed.

Lemma search_from_prefix (r : regex) (s : str) :
  forall must_move sn b e,
    search_from r must_move sn s = Some (b, e) ->
    exists s', rev sn ++ s = rev (seen b) ++ s'.
Proof.
  induction s as [|c t IH]; intros mm sn b e H; simpl in H.
  - destruct (run r _ _); [|discriminate]. injection H as <- _. now exists [].
  - destruct (run r _ _).
    + injection H as <- _. now exists (c :: t).
    + apply IH in H as (s' & E). exists s'. rewrite <- E. simpl.
      now rewrite <- app_assoc.
Qed.

Lemma occurs_in_split_head (r : regex) (w x : str) :
  occurs_in w (split_head r x) -> occurs_in w x.
Proof.
  unfold split_head, re_search.
  destruct (search_from r false [] x) as [[b e]|] eqn:E; [|trivial].
  apply search_from_prefix in E as (s' & E). simpl in E. intro H.
  rewrite E. apply (occurs_in_part w _ [] s') in H. exact H.
Qed.

Lemma accumulate_origin (lines : list str) (x : str) :
  In x (accumulate lines) -> exists l, In l lines /\ x = clean_line l.
Proof.
  induction lines as [|l rest IH]; simpl; [contradiction|].
  destruct (stops l); [contradiction|]. intros [<- | H].
  - exists l. auto.
  - destruct (IH H) as (l' & Hin & ->). exists l'. auto.
Qed.

(** An accumulated line is the inline fragment of the first marker line or
    a line after it. *)
Lemma abstract_lines_origin (lines : list str) (x : str) :
  In x (abstract_lines lines) ->
  exists pre line post,
    lines = pre ++ line :: post /\ Forall no_marker pre /\ marker_line line
    /\ ((exists l, In l post /\ x = clean_line l)
        \/ (exists m, re_match ABSTRACT_INLINE_PAT line = Some m
                      /\ x = clean_line (group 1 m))).
Proof.
  induction lines as [|line rest IH]; simpl; [contradiction|].
  destruct (re_match ABSTRACT_INLINE_PAT line) as [m|] eqn:E.
  - assert (Hm : marker_line line) by (left; unfold matches; now rewrite E).
    intros [<- | H]; exists [], line, rest; (split; [reflexivity|]);
      (split; [constructor|]); (split; [exact Hm|]).
    + right. now exists m.
    + left. now apply accumulate_origin.
  - destruct (matches ABSTRACT_HEAD_PAT line) eqn:Eh.
    + intro H. exists [], line, rest. split; [reflexivity|]. split; [constructor|].
      split; [now right|].
      left. now apply accumulate_origin.
    + intro H. destruct (IH H) as (pre & l & post & -> & Hpre & Hx).
      exists (line :: pre), l, post. split; [reflexivity|]. split; [|exact Hx].
      constructor; [|exact Hpre]. split; [|exact Eh].
      unfold matches. now rewrite E.
Qed.

Lemma splitlines_from_no_newline (n : nat) :
  forall s cur l, length s <= n -> ~ In 10%N cur ->
                  In l (splitlines_from cur s) -> ~ In 10%N l.
Proof.
  assert (Hrev : forall cur, ~ In 10%N cur -> ~ In 10%N (rev cur)).
  { intros cur H Hin. apply H. now apply in_rev. }
  induction n as [|n IH]; intros s cur l Hlen Hcur Hl.
  - destruct s; [|simpl in Hlen; lia]. simpl in Hl.
    destruct cur; [contradiction|]. destruct Hl as [<- | []]. now apply Hrev.
  - destruct s as [|c t].
    + simpl in Hl. destruct cur; [contradiction|]. destruct Hl as [<- | []]. now apply Hrev.
    + simpl in Hlen. rewrite splitlines_from_cons in Hl.
      destruct (c =? 13)%N eqn:E13.
      * destruct t as [|c' t'].
        -- destruct Hl as [<- | []]. now apply Hrev.
        -- destruct (c' =? 10)%N; destruct Hl as [<- | Hl]; try now apply Hrev.
           ++ apply (IH t' [] l); [simpl in Hlen; lia | tauto | exact Hl].
           ++ apply (IH (c' :: t') [] l); [lia | tauto | exact Hl].
      * destruct (is_linebreak c) eqn:Elb.
        -- destruct Hl as [<- | Hl]; [now apply Hrev|].
           apply (IH t [] l); [lia | tauto | exact Hl].
        -- apply (IH t (c :: cur) l); [lia | | exact Hl].
           intros [-> | H]; [discriminate | contradiction].
Qed.

Lemma splitlines_no_newline (text l : str) : In l (splitlines text) -> ~ In 10%N l.
Proof.
  apply (splitlines_from_no_newline (length text)); [lia | tauto].
Qed.

Lemma after_ilit_split (w : str) :
  forall s rest, after_ilit w s = Some rest ->
                 exists m, s = m ++ rest /\ after_ilit w m = Some [].
Proof.
  induction w as [|p w IH]; intros s rest H; simpl in H.
  - injection H as <-. now exists [].
  - destruct s as [|c t]; [discriminate|]. destruct (ieq p c) eqn:E; [|discriminate].
    destruct (IH t rest H) as (m & -> & Hm). exists (c :: m). simpl. now rewrite E.
Qed.

Lemma after_ilit_app (w : str) :
  forall m rest, after_ilit w m = Some [] -> after_ilit w (m ++ rest) = Some rest.
Proof.
  induction w as [|p w IH]; intros m rest H; simpl in H.
  - now injection H as ->.
  - destruct m as [|c t]; [discriminate|]. simpl.
    destruct (ieq p c); [now apply IH | discriminate].
Qed.

Lemma lstrip_by_app (p : N -> bool) (lead s : str) :
  forallb p lead = true -> lstrip_by p (lead ++ s) = lstrip_by p s.
Proof.
  induction lead as [|c t IH]; simpl; [reflexivity|].
  intro H. apply andb_prop in H as [Hc Ht]. rewrite Hc. now apply IH.
Qed.

Lemma inline_fragment_occurs (rest : str) :
  rest <> [] -> occurs_in (inline_fragment rest) rest.
Proof.
  intro Hne. unfold inline_fragment.
  destruct (lstrip_by is_space (drop_dash rest)) as [|x f] eqn:E.
  - destruct (exists_last Hne) as (pre & z & ->). rewrite last_last.
    exists pre, []. reflexivity.
  - rewrite <- E. assert (H : occurs_in (lstrip_by is_space (drop_dash rest)) (drop_dash rest)).
    { apply (occurs_in_lstrip_by is_space). exists [], []. now rewrite app_nil_r. }
    destruct rest as [|c t]; [congruence|]. simpl in *.
    destruct (is_dash c); [now apply occurs_in_cons | exact H].
Qed.

(** The shape of an inline abstract line. *)
Lemma inline_abstract_shape (line g : str) :
  inline_abstract line = Some g <->
  exists lead word c t,
    line = lead ++ word ++ c :: t
    /\ forallb is_space lead = true
    /\ after_ilit (py "abstract") word = Some []
    /\ is_word c = false
    /\ g = inline_fragment (c :: t).
Proof.
  unfold inline_abstract. split.
  - destruct (lstrip_by_split is_space line) as (lead & Eline & Hlead).
    destruct (after_ilit (py "abstract") (lstrip_by is_space line)) as [[|c t]|] eqn:Ea;
      try discriminate.
    destruct (is_word c) eqn:Hc; [discriminate|]. intro H. injection H as <-.
    apply after_ilit_split in Ea as (word & Ew & Hword).
    exists lead, word, c, t. rewrite Eline at 1. rewrite Ew. auto.
  - intros (lead & word & c & t & -> & Hlead & Hword & Hc & ->).
    rewrite lstrip_by_app by assumption.
    assert (Hl : lstrip_by is_space (word ++ c :: t) = word ++ c :: t).
    { destruct word as [|x word]; [discriminate|].
      change (py "abstract") with (97%N :: py "bstract") in Hword. simpl in Hword.
      destruct (ieq 97 x) eqn:Hx; [|discriminate]. simpl.
      destruct (is_space x) eqn:Hs; [|reflexivity].
      apply space_not_a in Hs. congruence. }
    rewrite Hl, (after_ilit_app _ _ _ Hword), Hc. reflexivity.
Qed.

(** C8, in the form that holds.  A line is taken as an inline abstract only if, after
    leading whitespace, it begins with the word "abstract" in any case and
    goes on with a code point that is not a word character.  The separator
    may be missing: when such a line still has text once the separator, if
    there is one, and the whitespace after it are passed, the line is an
    inline abstract and that text is its fragment. *)
Theorem inline_abstract_rule (line : str) :
  ~ In 10%N line ->
  (forall g,
     option_map (group 1) (re_match ABSTRACT_INLINE_PAT line) = Some g ->
     exists lead word c t,
       line = lead ++ word ++ c :: t
       /\ forallb is_space lead = true
       /\ after_ilit (py "abstract") word = Some []
       /\ is_word c = false)
  /\ (forall lead word c t,
        line = lead ++ word ++ c :: t ->
        forallb is_space lead = true ->
        after_ilit (py "abstract") word = Some [] ->
        is_word c = false ->
        lstrip_by is_space (drop_dash (c :: t)) <> [] ->
        option_map (group 1) (re_match ABSTRACT_INLINE_PAT line)
        = Some (lstrip_by is_space (drop_dash (c :: t)))).
Proof.
  intro Hn. pose proof (inline_pattern_spec line Hn) as E. unfold og in E.
  rewrite E. split.
  - intros g Hg. apply inline_abstract_shape in Hg
      as (lead & word & c & t & Hl & Hlead & Hword & Hc & _).
    now exists lead, word, c, t.
  - intros lead word c t Hl Hlead Hword Hc Htext.
    apply inline_abstract_shape. exists lead, word, c, t.
    repeat split; trivial. unfold inline_fragment.
    destruct (lstrip_by is_space (drop_dash (c :: t))); [congruence | reflexivity].
Qed.

(** C3, in the form that holds.  A word without whitespace, such as "abstract", occurs
    in the extracted abstract only if it occurs after the marker that opens
    the abstract: [line] is the first line that one of the two abstract
    patterns matches, and the word occurs in a line below it, or in it
    after its word "abstract".  The marker itself is never copied. *)
Theorem abstract_word_origin (text w : str) :
  w <> [] -> spaceless w -> occurs_in w (find_abstract text) ->
  exists pre line post,
    splitlines text = pre ++ line :: post
    /\ Forall no_marker pre
    /\ marker_line line
    /\ (Exists (occurs_in w) post
        \/ exists lead word rest,
             line = lead ++ word ++ rest
             /\ forallb is_space lead = true
             /\ after_ilit (py "abstract") word = Some []
             /\ occurs_in w rest).
Proof.
  intros Hw Hsp H. unfold find_abstract in H.
  unfold strip in H. apply occurs_in_strip_by in H.
  apply occurs_in_split_head in H. apply occurs_in_strip_by in H.
  apply occurs_in_join in H as (x & Hx & Hocc);
    [| exact Hw | now apply spaceless_no_space].
  apply abstract_lines_origin in Hx as (pre & line & post & E & Hpre & Hmark & Hx).
  exists pre, line, post. split; [exact E|]. split; [exact Hpre|].
  split; [exact Hmark|].
  destruct Hx as [(l & Hl & ->) | (m & Hm & ->)].
  - left. apply Exists_exists. exists l. split; [exact Hl|].
    now apply occurs_in_clean_line.
  - right. apply occurs_in_clean_line in Hocc; [|exact Hsp].
    assert (Hn : ~ In 10%N line).
    { apply (splitlines_no_newline text). rewrite E. apply in_or_app. right. now left. }
    pose proof (inline_pattern_spec line Hn) as Ei. rewrite Hm in Ei. simpl in Ei.
    symmetry in Ei. apply inline_abstract_shape in Ei
      as (lead & word & c & t & -> & Hlead & Hword & _ & Eg).
    exists lead, word, (c :: t). repeat split; trivial.
    rewrite Eg in Hocc. destruct (inline_fragment_occurs (c :: t)) as (a & b & Eab);
      [discriminate|].
    rewrite Eab. now apply occurs_in_part.
Qed.

(** ** Searching and the names found *)

Lemma findall_from_reach (r : regex) (fuel : nat) :
  forall must_move sn s g,
    In g (findall_from r fuel must_move sn s) ->
    exists b e, reach r b e /\ g = group 1 e.
Proof.
  induction fuel as [|f IH]; intros mm sn s g H; simpl in H; [contradiction|].
  destruct (search_from r mm sn s) as [[b e]|] eqn:E; [|contradiction].
  destruct H as [<- | H].
  - exists b, e. split; [eapply search_from_reach; eauto | reflexivity].
  - eapply IH; eauto.
Qed.

(** A name found by the pattern begins with a capital letter and is made of
    letters, whitespace and periods. *)
Lemma name_match_shape (b e : mstate) :
  reach NAME_PAT b e ->
  exists c t, group 1 e = c :: t /\ is_upper_ascii c = true
              /\ forallb name_char (c :: t) = true.
Proof.
  unfold NAME_PAT. cbn [cat]. intro H.
  repeat match goal with
         | H : reach (Cat _ _) _ _ |- _ => inv H
         | H : reach Wordb _ _ |- _ => inv H
         | H : reach Empty _ _ |- _ => inv H
         end.
  match goal with H : reach (Grp _ _) _ _ |- _ => inv H end.
  unfold group. cbn [groups set_group lookup_group Nat.eqb].
  match goal with H : reach _ _ ?s |- context [group_span _ ?s] => rename H into Hbody end.
  assert (Hq : classes_within name_char
                 (Cat capitalized
                   (Cat (Opt (cat [Plus (Sym is_space); Sym is_upper_ascii; chr "."]))
                        (Cat (Plus (Cat (Plus (Sym is_space)) capitalized)) Empty)))).
  { unfold name_char. simpl.
    repeat split; intros c Hc; try rewrite Hc; rewrite ?orb_true_r; trivial.
    unfold one_of in Hc. simpl in Hc. rewrite orb_false_r in Hc.
    rewrite Hc. now rewrite orb_true_r. }
  destruct (reach_moves _ _ _ _ Hbody Hq) as (xs & E & _ & Hxs).
  rewrite (group_span_app _ _ _ E).
  inv Hbody.
  match goal with H : reach capitalized _ _ |- _ => unfold capitalized in H; inv H end.
  match goal with H : reach (Sym _) _ _ |- _ => inv H end.
  repeat match goal with H : reach _ _ _ |- _ => apply reach_ahead in H as (? & ?) end.
  match goal with
  | Hc : ahead ?b = ?c :: ?t, H1 : ahead (shift ?c ?t ?b) = ?ys ++ ahead ?m,
    H2 : ahead ?m = ?zs ++ ahead ?e, Hup : is_upper_ascii ?c = true |- _ =>
      simpl in H1; rewrite Hc, H1, H2 in E;
      change (c :: ys ++ zs ++ ahead e) with ((c :: ys) ++ zs ++ ahead e) in E;
      rewrite app_assoc in E; apply app_inv_tail in E; subst xs;
      exists c, (ys ++ zs); auto
  end.
Qed.

(** ** Deduplication *)

Lemma mem_In (x : str) (l : list str) : mem x l = true <-> In x l.
Proof.
  unfold mem. rewrite existsb_exists. split.
  - intros (y & Hy & E). apply str_eqb_eq in E. now subst.
  - intro H. exists x. split; [exact H | now apply str_eqb_eq].
Qed.

Lemma mem_not_In (x : str) (l : list str) : mem x l = false <-> ~ In x l.
Proof.
  rewrite <- mem_In. destruct (mem x l); split; congruence.
Qed.

(** The loop with its set and its list is the direct reading [first_new]. *)
Lemma dedup_loop_first_new (names : list str) :
  forall seen_names ordered,
    dedup_loop names seen_names ordered
    = ordered ++ first_new (map strip names) seen_names.
Proof.
  induction names as [|n rest IH]; intros sn ord; simpl.
  - now rewrite app_nil_r.
  - destruct (mem (strip n) sn).
    + apply IH.
    + rewrite IH, <- app_assoc. reflexivity.
Qed.

Lemma dedup_first_new (names : list str) :
  dedup names = first_new (map strip names) [].
Proof. unfold dedup. now rewrite dedup_loop_first_new. Qed.

Lemma first_new_In (names : list str) :
  forall sn x, In x (first_new names sn) <-> In x names /\ ~ In x sn.
Proof.
  induction names as [|n rest IH]; intros sn x; simpl.
  - tauto.
  - destruct (mem n sn) eqn:E.
    + apply mem_In in E. rewrite IH. split.
      * intros [H1 H2]. auto.
      * intros [[-> | H1] H2]; [contradiction | auto].
    + apply mem_not_In in E. simpl. rewrite IH. simpl. split.
      * intros [<- | [H1 H2]]; [auto | split; [auto | tauto]].
      * intros [[<- | H1] H2]; [auto|].
        destruct (list_eq_dec N.eq_dec n x) as [<- | Hne]; [auto|].
        right. split; [exact H1 | intros [H | H]; auto].
Qed.

Lemma first_new_NoDup (names : list str) :
  forall sn, NoDup (first_new names sn).
Proof.
  induction names as [|n rest IH]; intro sn; simpl.
  - constructor.
  - destruct (mem n sn); [apply IH|].
    constructor; [|apply IH].
    rewrite first_new_In. simpl. tauto.
Qed.

Lemma first_new_order (names : list str) :
  forall sn x y, before x y (first_new names sn) -> first_met_before x y names.
Proof.
  induction names as [|n rest IH]; intros sn x y (l1 & l2 & l3 & E); simpl in E.
  - destruct l1; discriminate.
  - assert (Hin : forall sn' l, first_new rest sn' = l ++ x :: l2 ++ y :: l3 ->
                              In x (first_new rest sn') /\ In y (first_new rest sn')).
    { intros sn' l ->. split; [|rewrite app_comm_cons, app_assoc];
        apply in_or_app; right; left; reflexivity. }
    destruct (mem n sn) eqn:M.
    + destruct (Hin sn l1 E) as [Hx Hy].
      apply first_new_In in Hx as [_ Hx], Hy as [_ Hy]. apply mem_In in M.
      destruct (IH sn x y) as (p & q & -> & Hp1 & Hp2); [now exists l1, l2, l3|].
      exists (n :: p), q. simpl. repeat split; trivial; intros [H | H]; subst; auto.
    + destruct l1 as [|z l1]; simpl in E; injection E as E1 E2.
      * subst n. exists [], rest. simpl. auto.
      * subst z. destruct (Hin (n :: sn) l1 E2) as [Hx Hy].
        apply first_new_In in Hx as [_ Hx], Hy as [_ Hy]. simpl in Hx, Hy.
        destruct (IH (n :: sn) x y) as (p & q & -> & Hp1 & Hp2);
          [now exists l1, l2, l3|].
        exists (n :: p), q. simpl. repeat split; trivial; intros [H | H]; subst; auto.
Qed.

(** ** Joining with ", " and splitting again *)

Lemma split_from_skip_char (sep cur : str) (c : N) (t : str) :
  is_prefix sep (c :: t) = false ->
  split_from sep 0 cur (c :: t) = split_from sep 0 (c :: cur) t.
Proof. intro H. cbn [split_from]. now rewrite H. Qed.

Lemma comma_space_not_prefix (c : N) (t : str) :
  c <> 44%N -> is_prefix [44; 32]%N (c :: t) = false.
Proof.
  intro H. cbn [is_prefix]. apply N.eqb_neq in H. now rewrite N.eqb_sym, H.
Qed.

Lemma split_from_plain (x : str) :
  ~ In 44%N x -> forall cur, split_from [44; 32]%N 0 cur x = [rev cur ++ x].
Proof.
  induction x as [|c t IH]; intros Hx cur.
  - simpl. now rewrite app_nil_r.
  - rewrite split_from_skip_char
      by (apply comma_space_not_prefix; intros ->; apply Hx; now left).
    rewrite IH by (intro; apply Hx; now right).
    simpl. now rewrite <- app_assoc.
Qed.

Lemma split_from_at_separator (x more : str) :
  ~ In 44%N x ->
  forall cur, split_from [44; 32]%N 0 cur (x ++ 44%N :: 32%N :: more)
              = (rev cur ++ x) :: split_from [44; 32]%N 0 [] more.
Proof.
  induction x as [|c t IH]; intros Hx cur.
  - simpl. now rewrite app_nil_r.
  - cbn [app]. rewrite split_from_skip_char
      by (apply comma_space_not_prefix; intros ->; apply Hx; now left).
    rewrite IH by (intro; apply Hx; now right).
    simpl. now rewrite <- app_assoc.
Qed.

(** Names without a comma, joined with ", ", are recovered by splitting. *)
Lemma split_join (l : list str) :
  l <> [] -> Forall (fun x => ~ In 44%N x) l ->
  split (py ", ") (join (py ", ") l) = l.
Proof.
  unfold split. change (py ", ") with [44; 32]%N.
  induction l as [|p rest IH]; intros Hne Hall; [congruence|].
  inversion Hall as [|? ? Hp Hrest]; subst.
  destruct rest as [|q r].
  - simpl. now rewrite split_from_plain.
  - rewrite join_cons by discriminate.
    change ([44; 32]%N ++ join [44; 32]%N (q :: r))
      with (44%N :: 32%N :: join [44; 32]%N (q :: r)).
    rewrite split_from_at_separator by assumption. simpl rev. simpl app at 1.
    f_equal. apply IH; [discriminate | assumption].
Qed.

Lemma name_char_no_comma (x : str) : forallb name_char x = true -> ~ In 44%N x.
Proof.
  intros H Hin. rewrite forallb_forall in H. apply H in Hin. discriminate.
Qed.

Lemma strip_by_forallb (p q : N -> bool) (s : str) :
  forallb q s = true -> forallb q (strip_by p s) = true.
Proof.
  destruct (strip_by_split p s) as (pre & post & E & _ & _).
  intro H. rewrite E, !forallb_app in H.
  apply andb_prop in H as [_ H]. now apply andb_prop in H as [H _].
Qed.

(** Every name the extractor lists is free of commas. *)
Lemma found_names_no_comma (ln x : str) :
  In x (map strip (findall NAME_PAT ln)) -> ~ In 44%N x.
Proof.
  rewrite in_map_iff. intros (g & <- & Hg).
  apply findall_from_reach in Hg as (b & e & R & ->).
  apply name_match_shape in R as (c & t & -> & _ & Hall).
  apply name_char_no_comma. now apply strip_by_forallb.
Qed.

(** ** The author line *)

Lemma author_line_qualifies (ln : str) : author_line ln = true <-> qualifies ln.
Proof.
  unfold author_line, qualifies. cbv zeta.
  rewrite orb_true_iff, andb_true_iff, orb_true_iff, Nat.leb_le, Nat.eqb_eq.
  reflexivity.
Qed.

Lemma dedup_nonempty (names : list str) : names <> [] -> dedup names <> [].
Proof.
  destruct names as [|n rest]; [congruence|]. intros _.
  rewrite dedup_first_new. simpl. discriminate.
Qed.

Lemma qualifies_names (ln : str) : qualifies ln -> findall NAME_PAT ln <> [].
Proof.
  unfold qualifies. cbv zeta. destruct (findall NAME_PAT ln); simpl; [lia | discriminate].
Qed.

Lemma authors_of_lines_accept (ln : str) (rest : list str) :
  qualifies ln ->
  authors_of_lines (ln :: rest) = join (py ", ") (dedup (findall NAME_PAT ln)).
Proof.
  intro Hq. simpl. rewrite (proj2 (author_line_qualifies ln) Hq).
  pose proof (dedup_nonempty _ (qualifies_names ln Hq)) as Hne.
  destruct (dedup (findall NAME_PAT ln)); [congruence | reflexivity].
Qed.

Lemma authors_of_lines_reject (ln : str) (rest : list str) :
  ~ qualifies ln -> authors_of_lines (ln :: rest) = authors_of_lines rest.
Proof.
  intro Hq. simpl. destruct (author_line ln) eqn:E; [|reflexivity].
  apply author_line_qualifies in E. contradiction.
Qed.

Lemma authors_of_lines_skip (pre rest : list str) :
  Forall (fun l => ~ qualifies l) pre ->
  authors_of_lines (pre ++ rest) = authors_of_lines rest.
Proof.
  induction 1 as [|l pre Hl _ IH]; [reflexivity|].
  simpl app. now rewrite authors_of_lines_reject.
Qed.

Lemma authors_of_lines_cases (lines : list str) :
  authors_of_lines lines = []
  \/ exists ln, In ln lines /\ qualifies ln
                /\ authors_of_lines lines = join (py ", ") (dedup (findall NAME_PAT ln)).
Proof.
  induction lines as [|l rest IH]; [now left|].
  destruct (author_line l) eqn:E.
  - right. apply author_line_qualifies in E. exists l.
    split; [now left | split; [exact E | now apply authors_of_lines_accept]].
  - assert (Hn : ~ qualifies l).
    { intro Hq. apply author_line_qualifies in Hq. congruence. }
    rewrite authors_of_lines_reject by assumption.
    destruct IH as [IH | (ln & Hin & Hq & IH)]; [now left|].
    right. exists ln. split; [now right | split; assumption].
Qed.

(** C2, in the form that holds.  Among the first 8 filtered lines, the first line on
    which the name pattern finds at least two matches (the same name found
    twice counts twice), or exactly one match while the line holds a comma
    or, in lower case, " and ", is the author line: the extractor returns
    its names.  A line that does not meet this rule is passed over. *)
Theorem author_line_rule (text : str) (pre : list str) (ln : str) (post : list str) :
  firstn 8 (filtered_lines text) = pre ++ ln :: post ->
  Forall (fun l => ~ qualifies l) pre ->
  (author_line ln = true <-> qualifies ln)
  /\ (qualifies ln ->
      dedup (findall NAME_PAT ln) <> []
      /\ find_authors text = join (py ", ") (dedup (findall NAME_PAT ln)))
  /\ (~ qualifies ln -> find_authors text = authors_of_lines post).
Proof.
  intros Hl Hpre. unfold find_authors. rewrite Hl, authors_of_lines_skip by assumption.
  split; [apply author_line_qualifies|]. split.
  - intro Hq. split; [apply dedup_nonempty, qualifies_names, Hq|].
    now apply authors_of_lines_accept.
  - intro Hq. now apply authors_of_lines_reject.
Qed.

(** C9. The names the author extractor returns, read back by splitting its
    result at ", ", hold no name twice; and when a line was taken as the
    author line they are the names found on that line, each at the place
    of its first occurrence there. *)
Theorem authors_deduplicated (text : str) :
  NoDup (split (py ", ") (find_authors text))
  /\ (find_authors text = []
      \/ exists ln,
           In ln (firstn 8 (filtered_lines text)) /\ qualifies ln
           /\ let names := map strip (findall NAME_PAT ln) in
              let entries := split (py ", ") (find_authors text) in
              (forall x, In x entries <-> In x names)
              /\ (forall x y, before x y entries -> first_met_before x y names)).
Proof.
  unfold find_authors.
  destruct (authors_of_lines_cases (firstn 8 (filtered_lines text)))
    as [E | (ln & Hin & Hq & E)].
  - rewrite E. split; [|now left].
    simpl. constructor; [simpl; tauto | constructor].
  - assert (Hsplit : split (py ", ") (authors_of_lines (firstn 8 (filtered_lines text)))
                     = first_new (map strip (findall NAME_PAT ln)) []).
    { rewrite E, dedup_first_new. apply split_join.
      - rewrite <- dedup_first_new. apply dedup_nonempty, qualifies_names, Hq.
      - apply Forall_forall. intros x Hx. apply first_new_In in Hx as [Hx _].
        eapply found_names_no_comma; eauto. }
    rewrite Hsplit. split; [apply first_new_NoDup|].
    right. exists ln. split; [exact Hin|]. split; [exact Hq|]. cbv zeta. split.
    + intro x. rewrite first_new_In. simpl. tauto.
    + intros x y. apply first_new_order.
Qed.

(** * Further properties of the extractors *)

(** ** The line normalizer *)

Lemma lstrip_by_head (p : N -> bool) (s : str) (c : N) (t : str) :
  lstrip_by p s = c :: t -> p c = false.
Proof.
  induction s as [|x s IH]; simpl; [discriminate|].
  destruct (p x) eqn:E; [exact IH|]. intro H. now injection H as <- _.
Qed.

Lemma lstrip_by_fixed (p : N -> bool) (s : str) :
  (forall c t, s = c :: t -> p c = false) -> lstrip_by p s = s.
Proof.
  destruct s as [|c t]; [reflexivity|]. intro H. simpl. now rewrite (H c t eq_refl).
Qed.

Lemma lstrip_by_last (p : N -> bool) (s t : str) (c : N) :
  lstrip_by p s = t ++ [c] -> exists t', s = t' ++ [c].
Proof.
  destruct (lstrip_by_split p s) as (pre & E & _). intro H.
  exists (pre ++ t). rewrite E at 1. rewrite H. now rewrite app_assoc.
Qed.

Lemma rev_eq_cons (s : str) (c : N) (t : str) : rev s = c :: t -> s = rev t ++ [c].
Proof.
  intro H. apply (f_equal (@rev N)) in H. rewrite rev_involutive in H. exact H.
Qed.

Lemma rev_eq_snoc (s : str) (c : N) (t : str) : rev s = t ++ [c] -> s = c :: rev t.
Proof.
  intro H. apply (f_equal (@rev N)) in H.
  rewrite rev_involutive, rev_app_distr in H. exact H.
Qed.

(** What [strip] returns neither begins nor ends with a stripped code
    point. *)
Lemma strip_by_trimmed (p : N -> bool) (s : str) : trimmed p (strip_by p s).
Proof.
  unfold strip_by. split.
  - intros c t H. apply rev_eq_cons in H.
    apply lstrip_by_last in H as (t' & H). apply rev_eq_snoc in H.
    eapply lstrip_by_head; eauto.
  - intros t c H. apply rev_eq_snoc in H. eapply lstrip_by_head; eauto.
Qed.

Lemma strip_by_fixed (p : N -> bool) (s : str) : trimmed p s -> strip_by p s = s.
Proof.
  intros [Hh Hl]. unfold strip_by. rewrite (lstrip_by_fixed p s Hh).
  rewrite lstrip_by_fixed; [apply rev_involutive|].
  intros c t H. apply rev_eq_cons in H. eapply Hl; eauto.
Qed.

Lemma tidy_weaken (s : str) : tidy true s = true -> tidy false s = true.
Proof.
  destruct s as [|c t]; [reflexivity|]. simpl.
  destruct (is_space c); [discriminate | trivial].
Qed.

Lemma tidy_any (b : bool) (s : str) : tidy b s = true -> tidy false s = true.
Proof. destruct b; [apply tidy_weaken | trivial]. Qed.

Lemma tidy_tail (b : bool) (c : N) (t : str) :
  tidy b (c :: t) = true -> tidy false t = true.
Proof.
  simpl. destruct (is_space c); [|trivial].
  intro H. apply andb_prop in H as [_ H]. now apply tidy_weaken.
Qed.

Lemma tidy_suffix (pre s : str) :
  forall b, tidy b (pre ++ s) = true -> tidy false s = true.
Proof.
  induction pre as [|c pre IH]; intros b H; [now apply (tidy_any b)|].
  apply tidy_tail in H. now apply (IH false).
Qed.

Lemma tidy_prefix (s post : str) :
  forall b, tidy b (s ++ post) = true -> tidy b s = true.
Proof.
  induction s as [|c s IH]; intros b H; [reflexivity|].
  simpl in *. destruct (is_space c).
  - apply andb_prop in H as [H1 H2]. rewrite H1. now apply IH.
  - now apply IH.
Qed.

Lemma tidy_sub_spaces (s : str) :
  forall b, tidy b (sub_spaces (py " ") b s) = true.
Proof.
  induction s as [|c t IH]; intro b; [reflexivity|].
  simpl. destruct (is_space c) eqn:Hc.
  - destruct b; [apply IH|]. change (py " " ++ sub_spaces (py " ") true t)
      with (32%N :: sub_spaces (py " ") true t).
    simpl. apply IH.
  - simpl. rewrite Hc. apply IH.
Qed.

Lemma sub_spaces_fixed (s : str) :
  forall b, tidy b s = true -> sub_spaces (py " ") b s = s.
Proof.
  induction s as [|c t IH]; intros b H; [reflexivity|].
  simpl in *. destruct (is_space c).
  - apply andb_prop in H as [H Ht]. apply andb_prop in H as [Hb Hc].
    apply N.eqb_eq in Hc. subst c. destruct b; [discriminate|].
    change (py " " ++ sub_spaces (py " ") true t) with (32%N :: sub_spaces (py " ") true t).
    now rewrite IH.
  - now rewrite IH.
Qed.

Lemma tidy_strip (s : str) (b : bool) :
  tidy b s = true -> tidy false (strip s) = true.
Proof.
  intro H. destruct (strip_by_split is_space s) as (pre & post & E & _ & _).
  rewrite E in H. apply tidy_suffix in H. now apply tidy_prefix in H.
Qed.

Lemma tidy_clean_line (s : str) : tidy false (clean_line s) = true.
Proof. unfold clean_line. eapply tidy_strip, tidy_sub_spaces. Qed.

Lemma tidy_only_spaces (s : str) :
  forall b, tidy b s = true -> forall c, In c s -> is_space c = true -> c = 32%N.
Proof.
  induction s as [|x t IH]; intros b H c Hin Hc; [contradiction|].
  simpl in H. destruct Hin as [-> | Hin].
  - rewrite Hc in H. apply andb_prop in H as [H _]. apply andb_prop in H as [_ H].
    now apply N.eqb_eq.
  - destruct (is_space x).
    + apply andb_prop in H as [_ H]. eapply IH; eauto.
    + eapply IH; eauto.
Qed.

Lemma tidy_no_double (s : str) :
  forall b pre c1 c2 post,
    tidy b s = true -> s = pre ++ c1 :: c2 :: post ->
    is_space c1 = true -> is_space c2 = true -> False.
Proof.
  intros b pre c1 c2 post H -> H1 H2. apply tidy_suffix in H.
  simpl in H. rewrite H1, H2 in H. simpl in H. now rewrite andb_false_r in H.
Qed.

(** X1. A cleaned line is in normal form: its only whitespace is the plain
    space, no two spaces follow each other, and it neither begins nor ends
    with whitespace. *)
Theorem clean_line_normal_form (s : str) :
  (forall c, In c (clean_line s) -> is_space c = true -> c = 32%N)
  /\ (forall pre c1 c2 post,
        clean_line s = pre ++ c1 :: c2 :: post ->
        is_space c1 = true -> is_space c2 = false)
  /\ trimmed is_space (clean_line s).
Proof.
  split; [apply (tidy_only_spaces _ false), tidy_clean_line|]. split.
  - intros pre c1 c2 post E H1. destruct (is_space c2) eqn:H2; [|reflexivity].
    exfalso. eapply (tidy_no_double (clean_line s)); eauto. apply tidy_clean_line.
  - apply strip_by_trimmed.
Qed.

(** X2. Cleaning a line twice is cleaning it once. *)
Theorem clean_line_idempotent (s : str) : clean_line (clean_line s) = clean_line s.
Proof.
  unfold clean_line at 1. rewrite sub_spaces_fixed by apply tidy_clean_line.
  apply strip_by_fixed. unfold clean_line. apply strip_by_trimmed.
Qed.

Lemma forallb_lstrip_by (p : N -> bool) (s : str) :
  lstrip_by p s = [] <-> forallb p s = true.
Proof.
  induction s as [|c t IH]; simpl; [tauto|].
  destruct (p c); simpl; [exact IH | split; discriminate].
Qed.

Lemma strip_by_empty (p : N -> bool) (s : str) :
  strip_by p s = [] <-> forallb p s = true.
Proof.
  unfold strip_by. split.
  - intro H. apply (f_equal (@rev N)) in H. rewrite rev_involutive in H. simpl in H.
    destruct (lstrip_by_split p (rev (lstrip_by p s))) as (q & E & Hq).
    rewrite H, app_nil_r in E.
    destruct (lstrip_by_split p s) as (pre & Es & Hpre).
    rewrite Es, forallb_app, Hpre. simpl.
    apply forallb_forall. intros x Hx. rewrite forallb_forall in Hq.
    apply Hq. rewrite <- E. now apply in_rev in Hx.
  - intro H. apply forallb_lstrip_by in H. rewrite H. reflexivity.
Qed.

Lemma sub_spaces_all_space (repl s : str) :
  forall b, forallb is_space s = true ->
            sub_spaces repl b s = if b then [] else match s with [] => [] | _ => repl end.
Proof.
  induction s as [|c t IH]; intros b H; [now destruct b|].
  simpl in *. apply andb_prop in H as [Hc Ht]. rewrite Hc, (IH true Ht).
  destruct b; [reflexivity | apply app_nil_r].
Qed.

Lemma sub_spaces_keeps_text (repl s : str) :
  forall b c, In c s -> is_space c = false -> In c (sub_spaces repl b s).
Proof.
  induction s as [|x t IH]; intros b c Hin Hc; [contradiction|].
  simpl. destruct Hin as [-> | Hin].
  - rewrite Hc. now left.
  - destruct (is_space x).
    + destruct b; [now apply IH | apply in_or_app; right; now apply IH].
    + right. now apply IH.
Qed.

Lemma clean_line_nil_blank (s : str) :
  clean_line s = [] -> forallb is_space s = true.
Proof.
  unfold clean_line, strip. rewrite strip_by_empty.
  intro H. apply forallb_forall. intros c Hc.
  destruct (is_space c) eqn:E; [reflexivity|].
  rewrite forallb_forall in H. rewrite <- E. apply H.
  now apply sub_spaces_keeps_text.
Qed.

Lemma clean_line_of_blank (s : str) :
  forallb is_space s = true -> clean_line s = [].
Proof.
  unfold clean_line, strip. rewrite strip_by_empty.
  intro H. rewrite sub_spaces_all_space by assumption.
  destruct s; reflexivity.
Qed.

(** X3. A line cleans to the empty line exactly when it holds nothing but
    whitespace. *)
Theorem clean_line_empty (s : str) :
  clean_line s = [] <-> forallb is_space s = true.
Proof. split; [apply clean_line_nil_blank | apply clean_line_of_blank]. Qed.

(** ** Texts without a marker *)

Lemma find_abstract_of_lines (text : str) :
  abstract_lines (splitlines text) = [] -> find_abstract text = [].
Proof. unfold find_abstract. intros ->. vm_compute. reflexivity. Qed.

Lemma abstract_lines_none (lines : list str) :
  Forall no_marker lines -> abstract_lines lines = [].
Proof.
  intro H. rewrite <- (app_nil_r lines). now rewrite abstract_lines_skip.
Qed.

(** X4. A text none of whose lines opens an abstract has the empty
    abstract. *)
Theorem find_abstract_no_marker (text : str) :
  Forall no_marker (splitlines text) -> find_abstract text = [].
Proof. intro H. now apply find_abstract_of_lines, abstract_lines_none. Qed.

Lemma keywords_of_lines_skip (pre rest : list str) :
  Forall no_keywords pre -> keywords_of_lines (pre ++ rest) = keywords_of_lines rest.
Proof.
  induction 1 as [|l pre Hl _ IH]; simpl; [reflexivity|].
  unfold no_keywords, matches in Hl.
  destruct (re_match KEYWORDS_PAT l); [discriminate | exact IH].
Qed.

Lemma keywords_of_lines_none (lines : list str) :
  Forall no_keywords lines -> keywords_of_lines lines = [].
Proof.
  intro H. rewrite <- (app_nil_r lines). now rewrite keywords_of_lines_skip.
Qed.

(** X5. A text none of whose lines is a keywords header has the empty
    keyword list. *)
Theorem find_keywords_no_header (text : str) :
  Forall no_keywords (splitlines text) -> find_keywords text = [].
Proof. intro H. unfold find_keywords. now apply keywords_of_lines_none. Qed.

Lemma keywords_of_lines_header (hdr : str) :
  matches KEYWORDS_PAT hdr = true ->
  exists seed, forall rest,
    keywords_of_lines (hdr :: rest)
    = join (py ", ")
           (keyword_parts
              (strip_chars (py ";") (strip (join (py " ") (seed :: accumulate rest))))).
Proof.
  unfold matches. intro H. simpl.
  destruct (re_match KEYWORDS_PAT hdr) as [m|]; [|discriminate].
  exists (clean_line (group 2 m)). reflexivity.
Qed.

(** X6. When the first keywords header of a text is followed, some lines
    later, by a blank line or by a line that the boundary pattern takes as
    the next section, and the text ends with a complete line, then
    whatever is appended to the text leaves the keyword list as it was. *)
Theorem keywords_stop_at_boundary
        (T more : str) (nl : N) (pre : list str) (hdr : str)
        (body : list str) (stop : str) (tail : list str) :
  is_linebreak nl = true -> nl <> 13%N ->
  splitlines (T ++ [nl]) = pre ++ hdr :: body ++ stop :: tail ->
  Forall no_keywords pre ->
  matches KEYWORDS_PAT hdr = true ->
  strip stop = [] \/ matches NEXT_SECTION_PAT stop = true ->
  find_keywords ((T ++ [nl]) ++ more) = find_keywords (T ++ [nl]).
Proof.
  intros Hnl H13 Hlines Hpre Hhdr Hstop. apply boundary_stops in Hstop.
  unfold find_keywords. rewrite (splitlines_app T more nl Hnl H13), Hlines.
  rewrite <- app_assoc.
  rewrite (keywords_of_lines_skip pre _ Hpre), (keywords_of_lines_skip pre _ Hpre).
  destruct (keywords_of_lines_header hdr Hhdr) as (seed & Hseed).
  rewrite <- app_comm_cons, !Hseed, <- app_assoc, <- app_comm_cons.
  rewrite (accumulate_stops_at body stop (tail ++ splitlines more)) by assumption.
  rewrite (accumulate_stops_at body stop tail) by assumption.
  reflexivity.
Qed.

(** ** The authors *)

(** X7. The author extractor reads the first 40 lines only: once a text has
    40 complete lines, whatever is appended leaves the authors as they
    were. *)
Theorem find_authors_reads_40_lines (T more : str) (nl : N) :
  is_linebreak nl = true -> nl <> 13%N ->
  40 <= length (splitlines (T ++ [nl])) ->
  find_authors ((T ++ [nl]) ++ more) = find_authors (T ++ [nl]).
Proof.
  intros Hnl H13 Hlen. unfold find_authors, filtered_lines.
  rewrite (splitlines_app T more nl Hnl H13), firstn_app.
  replace (40 - length (splitlines (T ++ [nl]))) with 0 by lia.
  simpl firstn at 2. now rewrite app_nil_r.
Qed.

Lemma upper_not_space (c : N) : is_upper_ascii c = true -> is_space c = false.
Proof.
  unfold is_upper_ascii, in_range. rewrite andb_true_iff, !N.leb_le. intros [H1 H2].
  destruct (is_space c) eqn:E; [|reflexivity]. exfalso.
  unfold is_space, in_range in E.
  rewrite !orb_true_iff, !andb_true_iff, !N.leb_le, !N.eqb_eq in E. lia.
Qed.

Lemma join_nonempty (sep x : str) (rest : list str) :
  x <> [] -> join sep (x :: rest) <> [].
Proof.
  intros Hx H. destruct rest; simpl in H; [contradiction|].
  destruct x; [contradiction | discriminate].
Qed.

Lemma accepted_line_yields_names (ln : str) :
  qualifies ln -> join (py ", ") (dedup (findall NAME_PAT ln)) <> [].
Proof.
  intro Hq. pose proof (qualifies_names ln Hq) as Hne.
  rewrite dedup_first_new.
  destruct (findall NAME_PAT ln) as [|n names] eqn:E; [congruence|].
  assert (Hin : In n (findall NAME_PAT ln)) by (rewrite E; now left).
  apply findall_from_reach in Hin as (b & e & R & ->).
  apply name_match_shape in R as (c & t & Eg & Hup & _).
  change (first_new (map strip (group 1 e :: names)) [])
    with (strip (group 1 e) :: first_new (map strip names) [strip (group 1 e)]).
  rewrite Eg.
  destruct (strip_by_head is_space c t (upper_not_space c Hup)) as (t' & Es).
  unfold strip at 1. rewrite Es. apply join_nonempty. discriminate.
Qed.

(** X8. The author extractor returns the empty string exactly when none of
    the first 8 filtered lines meets the author-line rule. *)
Theorem find_authors_empty (text : str) :
  find_authors text = []
  <-> Forall (fun l => ~ qualifies l) (firstn 8 (filtered_lines text)).
Proof.
  unfold find_authors. split.
  - intro H. apply Forall_forall. intros l Hl Hq.
    assert (Hgen : forall lines, In l lines -> authors_of_lines lines <> []).
    { induction lines as [|x lines IH]; [contradiction|]. intros [-> | Hin].
      - rewrite authors_of_lines_accept by assumption.
        now apply accepted_line_yields_names.
      - destruct (author_line x) eqn:Ex.
        + apply author_line_qualifies in Ex.
          rewrite authors_of_lines_accept by assumption.
          now apply accepted_line_yields_names.
        + rewrite authors_of_lines_reject; [now apply IH|].
          intro Hx. apply author_line_qualifies in Hx. congruence. }
    now apply (Hgen _ Hl).
  - intro H. rewrite <- (app_nil_r (firstn 8 _)).
    now rewrite authors_of_lines_skip.
Qed.

Lemma in_firstn (A : Type) (n : nat) (l : list A) (x : A) :
  In x (firstn n l) -> In x l.
Proof.
  intro H. rewrite <- (firstn_skipn n l). apply in_or_app. now left.
Qed.



Lemma lower_not_space (c : N) : is_lower_ascii c = true -> is_space c = false.
Proof.
  unfold is_lower_ascii, in_range. rewrite andb_true_iff, !N.leb_le. intros [H1 H2].
  destruct (is_space c) eqn:E; [|reflexivity]. exfalso.
  unfold is_space, in_range in E.
  rewrite !orb_true_iff, !andb_true_iff, !N.leb_le, !N.eqb_eq in E. lia.
Qed.

(** What a repetition reaches is where it started, or a position that its
    body reaches. *)
Lemma reach_rep_last (a : regex) (Q : mstate -> Prop) :
  (forall x y, reach a x y -> Q y) ->
  forall s1 s2, reach (Rep a) s1 s2 -> s2 = s1 \/ Q s2.
Proof.
  intros Ha s1 s2 H. remember (Rep a) as r eqn:Er.
  induction H; try discriminate.
  - now left.
  - injection Er as ->. right. destruct (IHreach2 eq_refl) as [-> | HQ]; eauto.
Qed.

Lemma reach_plus_last (a : regex) (Q : mstate -> Prop) :
  (forall x y, reach a x y -> Q y) ->
  forall s1 s2, reach (Plus a) s1 s2 -> Q s2.
Proof.
  intros Ha s1 s2 H. unfold Plus in H. inv H.
  match goal with H : reach (Rep a) _ _ |- _ =>
    apply (reach_rep_last a Q Ha) in H as [-> | HQ] end; eauto.
Qed.

Lemma reach_capitalized_last (x y : mstate) : reach capitalized x y -> after_lower y.
Proof.
  unfold capitalized. intro H. inv H.
  match goal with H : reach (Plus _) _ _ |- _ =>
    apply (reach_plus_last (Sym is_lower_ascii) after_lower) in H; [exact H|] end.
  intros a b Hs. inv Hs. exists c, (seen a). auto.
Qed.

(** A name found by the pattern ends with a lower-case letter and holds
    whitespace: it has at least two words. *)
Lemma name_match_words (b e : mstate) :
  reach NAME_PAT b e ->
  exists t d sp,
    group 1 e = t ++ [d] /\ is_lower_ascii d = true
    /\ In sp (group 1 e) /\ is_space sp = true.
Proof.
  unfold NAME_PAT. cbn [cat]. intro H.
  repeat match goal with
         | H : reach (Cat _ _) _ _ |- _ => inv H
         | H : reach Wordb _ _ |- _ => inv H
         | H : reach Empty _ _ |- _ => inv H
         end.
  match goal with H : reach (Grp _ _) _ _ |- _ => inv H end.
  unfold group. cbn [groups set_group lookup_group Nat.eqb].
  match goal with H : reach _ ?b ?s |- context [group_span ?b ?s] => rename H into Hbody end.
  destruct (reach_ahead _ _ _ Hbody) as (xs & E).
  rewrite (group_span_app _ _ _ E).
  assert (Hall : classes_within (fun _ => true)
                   (Cat capitalized
                     (Cat (Opt (cat [Plus (Sym is_space); Sym is_upper_ascii; chr "."]))
                          (Cat (Plus (Cat (Plus (Sym is_space)) capitalized)) Empty)))).
  { simpl. repeat split; reflexivity. }
  destruct (reach_moves _ _ _ _ Hbody Hall) as (xs' & E' & Eseen & _).
  rewrite E in E'. apply app_inv_tail in E'. subst xs'.
  inv Hbody.
  repeat match goal with
         | H : reach (Cat (Opt _) _) _ _ |- _ => inv H
         | H : reach (Cat (Plus _) Empty) _ _ |- _ => inv H
         | H : reach Empty _ _ |- _ => inv H
         end.
  match goal with
  | Hc : reach capitalized ?b ?s1, Ho : reach (Opt _) ?s1 ?s2,
    Hw : reach (Plus (Cat (Plus (Sym is_space)) capitalized)) ?s2 ?s3 |- _ =>
      pose proof (reach_plus_last (Cat (Plus (Sym is_space)) capitalized) after_lower) as Hlast;
      specialize (Hlast (fun x y Hxy =>
        ltac:(inv Hxy; eapply reach_capitalized_last; eassumption)) s2 s3 Hw);
      apply reach_ahead in Hc as (x1 & E1), Ho as (x2 & E2);
      unfold Plus in Hw; inv Hw
  end.
  match goal with H : reach (Cat (Cat (Sym is_space) _) capitalized) _ _ |- _ => inv H end.
  match goal with H : reach (Cat (Sym is_space) _) _ _ |- _ => inv H end.
  match goal with H : reach (Sym is_space) _ _ |- _ => inv H end.
  repeat match goal with H : reach _ _ _ |- _ => apply reach_ahead in H as (? & ?) end.
  destruct Hlast as (d & sn & Hd & Hlow).
  match goal with
  | Hsp : ahead ?s2 = ?c :: ?t, H1 : ahead (shift ?c ?t ?s2) = ?y1 ++ ahead ?m1,
    H2 : ahead ?m1 = ?y2 ++ ahead ?m2, H3 : ahead ?m2 = ?y3 ++ ahead ?s3,
    Hs : is_space ?c = true |- _ =>
      simpl in H1; rewrite E1, E2, Hsp, H1, H2, H3 in E;
      assert (Exs : xs = x1 ++ x2 ++ c :: y1 ++ y2 ++ y3)
        by (apply (app_inv_tail (ahead s3)); rewrite <- E, <- !app_assoc; simpl;
            now rewrite <- !app_assoc);
      assert (Hin : In c xs)
        by (rewrite Exs; apply in_or_app; right; apply in_or_app; right; now left)
  end.
  rewrite Eseen in Hd.
  destruct (rev xs) as [|d' r] eqn:Er.
  - apply (f_equal (@rev N)) in Er. rewrite rev_involutive in Er. subst xs. contradiction.
  - simpl in Hd. injection Hd as -> _. apply rev_eq_cons in Er.
    exists (rev r), d. eauto.
Qed.

Lemma strip_found_name (ln g : str) :
  In g (findall NAME_PAT ln) -> strip g = g.
Proof.
  intro Hg. apply findall_from_reach in Hg as (b & e & R & ->).
  destruct (name_match_shape b e R) as (c & t & E & Hup & _).
  destruct (name_match_words b e R) as (t' & d & _ & E' & Hlow & _).
  apply strip_by_fixed. split.
  - intros c0 t0 H. rewrite E in H. injection H as <- _. now apply upper_not_space.
  - intros t0 d0 H. rewrite E' in H. apply app_inj_tail in H as [_ <-].
    now apply lower_not_space.
Qed.

Lemma authors_entries (text : str) :
  find_authors text <> [] ->
  exists ln, In ln (firstn 8 (filtered_lines text)) /\ qualifies ln
             /\ split (py ", ") (find_authors text)
                = first_new (map strip (findall NAME_PAT ln)) [].
Proof.
  unfold find_authors. intro Hne.
  destruct (authors_of_lines_cases (firstn 8 (filtered_lines text)))
    as [E | (ln & Hin & Hq & E)]; [congruence|].
  exists ln. split; [exact Hin|]. split; [exact Hq|].
  rewrite E, dedup_first_new. apply split_join.
  - rewrite <- dedup_first_new. apply dedup_nonempty, qualifies_names, Hq.
  - apply Forall_forall. intros x Hx. apply first_new_In in Hx as [Hx _].
    eapply found_names_no_comma; eauto.
Qed.

(** X10. Every name the author extractor returns begins with a capital
    ASCII letter, ends with a lower-case ASCII letter, is made of ASCII
    letters, whitespace and periods only, and holds whitespace: a name has
    at least two words. *)
Theorem author_names_shape (text x : str) :
  find_authors text <> [] ->
  In x (split (py ", ") (find_authors text)) ->
  exists c mid d,
    x = c :: mid ++ [d]
    /\ is_upper_ascii c = true /\ is_lower_ascii d = true
    /\ forallb name_char x = true
    /\ existsb is_space x = true.
Proof.
  intros Hne Hx. destruct (authors_entries text Hne) as (ln & _ & _ & E).
  rewrite E in Hx. apply first_new_In in Hx as [Hx _].
  apply in_map_iff in Hx as (g & Hs & Hg).
  rewrite (strip_found_name ln g Hg) in Hs. subst g.
  apply findall_from_reach in Hg as (b & e & R & ->).
  destruct (name_match_shape b e R) as (c & t & Ec & Hup & Hall).
  destruct (name_match_words b e R) as (t' & d & sp & Ed & Hlow & Hin & Hsp).
  rewrite Ec in *. destruct t' as [|c' mid].
  - simpl in Ed. injection Ed as -> _.
    unfold is_upper_ascii, is_lower_ascii, in_range in Hup, Hlow.
    rewrite andb_true_iff, !N.leb_le in Hup, Hlow. lia.
  - simpl in Ed. injection Ed as <- Et. exists c, mid, d. subst t.
    repeat split; trivial. apply existsb_exists. eauto.
Qed.

(** ** The keyword terms *)

Lemma split_class_fields (p : N -> bool) (s : str) :
  forall cur f, In f (split_class p cur s) ->
                (forall c, In c cur -> p c = false) ->
                forall c, In c f -> p c = false.
Proof.
  induction s as [|x t IH]; intros cur f Hf Hcur c Hc; simpl in Hf.
  - destruct Hf as [<- | []]. apply Hcur. now apply in_rev.
  - destruct (p x) eqn:Hx.
    + destruct Hf as [<- | Hf].
      * apply Hcur. now apply in_rev.
      * apply (IH [] f Hf); [intros ? [] | exact Hc].
    + apply (IH (x :: cur) f Hf); [|exact Hc].
      intros y [<- | Hy]; [exact Hx | now apply Hcur].
Qed.

Lemma strip_by_In (p : N -> bool) (s : str) (c : N) :
  In c (strip_by p s) -> In c s.
Proof.
  destruct (strip_by_split p s) as (pre & post & E & _ & _). intro H.
  rewrite E. apply in_or_app. right. apply in_or_app. now left.
Qed.

Lemma keywords_of_lines_parts (lines : list str) :
  exists kws, keywords_of_lines lines = join (py ", ") (keyword_parts kws).
Proof.
  induction lines as [|l rest IH]; simpl.
  - exists []. reflexivity.
  - destruct (re_match KEYWORDS_PAT l); [eauto | exact IH].
Qed.

(** X11. The keyword extractor returns terms joined with ", ": no term is
    empty, none holds a comma or a semicolon, none begins or ends with a
    space, a period or a semicolon, and splitting the result at ", " gives
    the terms back. *)
Theorem keyword_terms (text : str) :
  exists terms,
    find_keywords text = join (py ", ") terms
    /\ (terms <> [] -> split (py ", ") (find_keywords text) = terms)
    /\ Forall (fun t => t <> [] /\ ~ In 44%N t /\ ~ In 59%N t
                        /\ trimmed (one_of (py " .;")) t) terms.
Proof.
  unfold find_keywords.
  destruct (keywords_of_lines_parts (splitlines text)) as (kws & E).
  assert (Hterms : Forall (fun t => t <> [] /\ ~ In 44%N t /\ ~ In 59%N t
                                    /\ trimmed (one_of (py " .;")) t)
                          (keyword_parts kws)).
  { apply Forall_forall. intros t Ht.
    apply keyword_parts_spec in Ht as (cand & Hc & -> & Hne).
    assert (Hsep : forall c, In c (strip_chars (py " .;") cand) ->
                             is_semi_or_comma c = false).
    { intros c Hin. apply strip_by_In in Hin.
      apply (split_class_fields is_semi_or_comma kws [] cand Hc); [intros ? []|exact Hin]. }
    repeat split; trivial.
    - intro Hin. apply Hsep in Hin. discriminate.
    - intro Hin. apply Hsep in Hin. discriminate.
    - apply strip_by_trimmed.
    - apply strip_by_trimmed. }
  exists (keyword_parts kws). split; [exact E|]. split; [|exact Hterms].
  intro Hne. rewrite E. apply split_join; [exact Hne|].
  eapply Forall_impl; [|exact Hterms]. simpl. tauto.
Qed.

(** ** Texts without text *)

Lemma space_not_ieq (p c : N) :
  is_lower_ascii p = true -> is_space c = true -> ieq p c = false.
Proof.
  intros Hp Hc. destruct (ieq p c) eqn:E; [|reflexivity]. exfalso.
  apply ieq_cases in E.
  destruct E as [-> | [-> | [-> | [-> | [-> | ->]]]]]; try (vm_compute in Hc; discriminate).
  - apply lower_not_space in Hp. congruence.
  - assert (Hup : is_upper_ascii (p - 32) = true).
    { unfold is_lower_ascii, is_upper_ascii, in_range in *.
      rewrite andb_true_iff, !N.leb_le in *. lia. }
    apply upper_not_space in Hup. congruence.
Qed.

(** Whitespace before something that needs a code point which is not
    whitespace: nothing matches a line of whitespace. *)
Lemma star_sym_refuses (k : mstate -> option mstate) (gs : list (nat * str)) :
  (forall sn t, forallb is_space t = true -> k (MState sn t gs) = None) ->
  forall s sn, forallb is_space s = true -> star_sym is_space k sn s gs = None.
Proof.
  intros Hk. induction s as [|c t IH]; intros sn Hs; simpl.
  - now apply Hk.
  - pose proof Hs as Hs'. simpl in Hs'. apply andb_prop in Hs' as [Hc Ht].
    rewrite Hc, (IH (c :: sn) Ht). now apply Hk.
Qed.

Lemma ilit_refuses_space (w : str) (p : N) (r : regex) (k : mstate -> option mstate)
      (sn t : str) (gs : list (nat * str)) :
  is_lower_ascii p = true -> forallb is_space t = true ->
  run (Cat (ilit_of (p :: w)) r) k (MState sn t gs) = None.
Proof.
  intros Hp Ht. cbn [ilit_of]. rewrite !run_cat.
  destruct t as [|c t]; [apply run_sym_nil|].
  simpl in Ht. apply andb_prop in Ht as [Hc _].
  now rewrite run_sym_cons, space_not_ieq.
Qed.

Lemma blank_line_no_marker (l : str) :
  forallb is_space l = true -> no_marker l /\ no_keywords l.
Proof.
  intro Hl. unfold no_marker, no_keywords, matches, re_match.
  unfold ABSTRACT_INLINE_PAT, ABSTRACT_HEAD_PAT, KEYWORDS_PAT. cbn [cat].
  rewrite !run_cat, !run_bol_start, !run_cat. unfold spaces at 1 3 5.
  rewrite !run_rep_sym. cbn [seen ahead groups].
  rewrite !star_sym_refuses; auto.
  - intros sn t Ht. cbn [alt]. rewrite run_cat, run_grp, run_or.
    unfold keywords_word, index_terms_word. cbn [cat]. unfold ilit.
    change (py "keyword") with (107%N :: py "eyword").
    change (py "index") with (105%N :: py "ndex").
    now rewrite !ilit_refuses_space.
  - intros sn t Ht. unfold ilit. change (py "abstract") with (97%N :: py "bstract").
    now apply ilit_refuses_space.
  - intros sn t Ht. unfold ilit. change (py "abstract") with (97%N :: py "bstract").
    now apply ilit_refuses_space.
Qed.

Lemma splitlines_from_chars (n : nat) :
  forall (s cur l : str) (c : N),
    length s <= n -> In l (splitlines_from cur s) -> In c l -> In c cur \/ In c s.
Proof.
  assert (Hrev : forall (cur : str) (c : N), In c (rev cur) -> In c cur).
  { intros cur c H. now apply in_rev. }
  induction n as [|n IH]; intros s cur l c Hlen Hl Hc.
  - destruct s; [|simpl in Hlen; lia]. simpl in Hl.
    destruct cur; [contradiction|]. destruct Hl as [<- | []]. left. now apply Hrev.
  - destruct s as [|x t].
    + simpl in Hl. destruct cur; [contradiction|]. destruct Hl as [<- | []].
      left. now apply Hrev.
    + simpl in Hlen. rewrite splitlines_from_cons in Hl.
      destruct (x =? 13)%N.
      * destruct t as [|x' t'].
        -- destruct Hl as [<- | []]. left. now apply Hrev.
        -- destruct (x' =? 10)%N; destruct Hl as [<- | Hl]; try (left; now apply Hrev).
           ++ destruct (IH t' [] l c) as [[] | H]; auto; [simpl in Hlen; lia|].
              right. right. now right.
           ++ destruct (IH (x' :: t') [] l c) as [[] | H]; auto; [lia|].
              right. now right.
      * destruct (is_linebreak x).
        -- destruct Hl as [<- | Hl]; [left; now apply Hrev|].
           destruct (IH t [] l c) as [[] | H]; auto; [lia|]. right. now right.
        -- destruct (IH t (x :: cur) l c) as [[<- | H] | H]; auto; [lia| |].
           ++ right. now left.
           ++ right. now right.
Qed.

Lemma splitlines_of_blank (text : str) :
  forallb is_space text = true ->
  Forall (fun l => forallb is_space l = true) (splitlines text).
Proof.
  intro H. apply Forall_forall. intros l Hl. apply forallb_forall. intros c Hc.
  destruct (splitlines_from_chars (length text) text [] l c (le_n _) Hl Hc) as [[] | Hin].
  rewrite forallb_forall in H. now apply H.
Qed.

Lemma filter_lines_of_blank (lines : list str) :
  Forall (fun l => forallb is_space l = true) lines -> filter_lines lines = [].
Proof.
  induction 1 as [|l lines Hl _ IH]; [reflexivity|].
  simpl. apply clean_line_of_blank in Hl. now rewrite Hl.
Qed.

Lemma Forall_firstn (A : Type) (P : A -> Prop) (n : nat) (l : list A) :
  Forall P l -> Forall P (firstn n l).
Proof.
  rewrite !Forall_forall. intros H x Hx. apply H. eapply in_firstn; eauto.
Qed.

Lemma find_authors_of_blank (text : str) :
  forallb is_space text = true -> find_authors text = [].
Proof.
  intro H. pose proof (splitlines_of_blank text H) as Hlines.
  unfold find_authors, filtered_lines.
  rewrite filter_lines_of_blank; [reflexivity | now apply Forall_firstn].
Qed.

Lemma find_abstract_of_blank (text : str) :
  forallb is_space text = true -> find_abstract text = [].
Proof.
  intro H. pose proof (splitlines_of_blank text H) as Hlines.
  apply find_abstract_of_lines, abstract_lines_none.
  eapply Forall_impl; [|exact Hlines].
  intros l Hl. now apply blank_line_no_marker.
Qed.

Lemma find_keywords_of_blank (text : str) :
  forallb is_space text = true -> find_keywords text = [].
Proof.
  intro H. pose proof (splitlines_of_blank text H) as Hlines.
  unfold find_keywords. apply keywords_of_lines_none.
  eapply Forall_impl; [|exact Hlines].
  intros l Hl. now apply blank_line_no_marker.
Qed.

Lemma squeezed_of_blank (text : str) :
  forallb is_space text = true -> sub_spaces [] false text = [].
Proof.
  intro H. rewrite sub_spaces_all_space by assumption. destruct text; reflexivity.
Qed.

(** X12. A text that holds nothing but whitespace (the empty text, the text
    of a file that could not be read) yields no authors, no abstract and no
    keywords, and counts no code point toward the low-yield test. *)
Theorem blank_text_yields_nothing (text : str) :
  forallb is_space text = true ->
  find_authors text = [] /\ find_abstract text = [] /\ find_keywords text = []
  /\ sub_spaces [] false text = [].
Proof.
  intro H. split; [|split; [|split]].
  - now apply find_authors_of_blank.
  - now apply find_abstract_of_blank.
  - now apply find_keywords_of_blank.
  - now apply squeezed_of_blank.
Qed.

(** X13. Lines above the first keywords header never reach the keyword
    list: complete lines that are no keywords header, put before a text,
    leave its keywords as they were. *)
Theorem keywords_ignore_preamble (P T : str) (nl : N) :
  is_linebreak nl = true -> nl <> 13%N ->
  Forall no_keywords (splitlines (P ++ [nl])) ->
  find_keywords ((P ++ [nl]) ++ T) = find_keywords T.
Proof.
  intros Hnl H13 Hpre. unfold find_keywords.
  rewrite (splitlines_app P T nl Hnl H13).
  now rewrite keywords_of_lines_skip.
Qed.

(** ** What makes up the abstract *)

(** X14. Lines above the first marker never reach the abstract: complete
    lines without a marker, put before a text, leave its abstract as it
    was. *)
Theorem abstract_ignores_preamble (P T : str) (nl : N) :
  is_linebreak nl = true -> nl <> 13%N ->
  Forall no_marker (splitlines (P ++ [nl])) ->
  find_abstract ((P ++ [nl]) ++ T) = find_abstract T.
Proof.
  intros Hnl H13 Hpre. unfold find_abstract.
  rewrite (splitlines_app P T nl Hnl H13).
  now rewrite abstract_lines_skip.
Qed.

Lemma accumulate_run (body : list str) (rest : list str) :
  Forall (fun l => stops l = false) body ->
  (rest = [] \/ exists stop tail, rest = stop :: tail /\ stops stop = true) ->
  accumulate (body ++ rest) = map clean_line body.
Proof.
  intros Hbody Hrest. induction Hbody as [|l body Hl _ IH]; simpl.
  - destruct Hrest as [-> | (stop & tail & -> & Hs)]; [reflexivity|].
    simpl. now rewrite Hs.
  - now rewrite Hl, IH.
Qed.

(** X15. The abstract is made of the fragment of the first marker line and
    of the lines below it up to the first boundary, cleaned, in their
    order, joined by single spaces and cut at a keywords marker; for a
    header line there is no fragment. *)
Theorem abstract_built_from_run
        (text : str) (pre : list str) (hdr : str) (body rest : list str) :
  splitlines text = pre ++ hdr :: body ++ rest ->
  Forall no_marker pre ->
  Forall (fun l => stops l = false) body ->
  (rest = [] \/ exists stop tail, rest = stop :: tail /\ stops stop = true) ->
  (forall m, re_match ABSTRACT_INLINE_PAT hdr = Some m ->
     find_abstract text
     = strip (split_head KEYWORDS_MARK_PAT
               (strip (join (py " ") (clean_line (group 1 m) :: map clean_line body)))))
  /\ (re_match ABSTRACT_INLINE_PAT hdr = None -> matches ABSTRACT_HEAD_PAT hdr = true ->
      find_abstract text
      = strip (split_head KEYWORDS_MARK_PAT
                (strip (join (py " ") (map clean_line body))))).
Proof.
  intros Hl Hpre Hbody Hrest. unfold find_abstract.
  rewrite Hl, abstract_lines_skip by assumption.
  pose proof (accumulate_run body rest Hbody Hrest) as Hacc.
  split.
  - intros m Hm. simpl. now rewrite Hm, Hacc.
  - intros Hm Hh. simpl. now rewrite Hm, Hh, Hacc.
Qed.

(** ** The abstract is in normal form *)

Lemma tidy_true_of (x : str) :
  tidy false x = true -> (forall c t, x = c :: t -> is_space c = false) ->
  tidy true x = true.
Proof.
  destruct x as [|c t]; [reflexivity|]. intros H Hh. simpl in *.
  now rewrite (Hh c t eq_refl) in *.
Qed.

Lemma tidy_app_space (y : str) (x : str) :
  forall b, tidy b x = true ->
            (forall t c, x = t ++ [c] -> is_space c = false) ->
            tidy true y = true -> (x = [] -> b = false) ->
            tidy b (x ++ 32%N :: y) = true.
Proof.
  induction x as [|c t IH]; intros b Hx Hlast Hy Hb.
  - rewrite (Hb eq_refl). simpl. exact Hy.
  - assert (Hlast' : forall t0 c0, t = t0 ++ [c0] -> is_space c0 = false).
    { intros t0 c0 ->. apply (Hlast (c :: t0) c0). reflexivity. }
    simpl in *. destruct (is_space c) eqn:Hc.
    + apply andb_prop in Hx as [H1 H2]. rewrite H1. simpl.
      apply IH; trivial. intros ->.
      specialize (Hlast [] c eq_refl). congruence.
    + apply IH; trivial.
Qed.

Lemma last_of_app (x y : str) (t : str) (c : N) :
  y <> [] -> x ++ y = t ++ [c] -> exists t', y = t' ++ [c].
Proof.
  intros Hy E. destruct (exists_last Hy) as (u & d & ->).
  rewrite app_assoc in E. apply app_inj_tail in E as [_ <-]. eauto.
Qed.

Lemma join_solid (l : list str) :
  Forall solid l -> l <> [] ->
  tidy true (join (py " ") l) = true
  /\ (forall t c, join (py " ") l = t ++ [c] -> is_space c = false)
  /\ join (py " ") l <> [].
Proof.
  induction 1 as [|x rest (Ht & (Hh & Hl) & Hne) _ IH]; [congruence|]. intros _.
  destruct rest as [|y rest].
  - simpl. split; [now apply tidy_true_of|]. split; assumption.
  - destruct IH as (IH1 & IH2 & IH3); [discriminate|].
    rewrite join_cons by discriminate.
    change (py " " ++ join (py " ") (y :: rest)) with (32%N :: join (py " ") (y :: rest)).
    split; [|split].
    + apply tidy_app_space; trivial; [now apply tidy_true_of | congruence].
    + intros t c E. apply last_of_app in E as (t' & E); [|discriminate].
      destruct t' as [|d t'].
      * cbn [app] in E. injection E as _ E. exfalso. now apply IH3.
      * cbn [app] in E. injection E as _ E. eapply IH2; eauto.
    + destruct x; [congruence | discriminate].
Qed.

Lemma clean_line_solid (l : str) : clean_line l <> [] -> solid (clean_line l).
Proof.
  intro H. split; [apply tidy_clean_line|]. split; [apply strip_by_trimmed | exact H].
Qed.

Lemma accumulate_solid (lines : list str) : Forall solid (accumulate lines).
Proof.
  induction lines as [|l rest IH]; simpl; [constructor|].
  destruct (stops l) eqn:E; constructor; [|exact IH].
  apply clean_line_solid. intro H. apply clean_line_nil_blank in H.
  apply (strip_by_empty is_space) in H. unfold stops in E.
  fold (strip l) in H. rewrite H in E. discriminate.
Qed.

Lemma tidy_join_after (x : str) (acc : list str) :
  tidy false x = true -> trimmed is_space x -> Forall solid acc ->
  tidy false (join (py " ") (x :: acc)) = true.
Proof.
  intros Hx [_ Hl] Hacc. destruct acc as [|y acc]; [exact Hx|].
  destruct (join_solid (y :: acc) Hacc) as (H1 & _); [discriminate|].
  rewrite join_cons by discriminate.
  change (py " " ++ join (py " ") (y :: acc)) with (32%N :: join (py " ") (y :: acc)).
  apply tidy_app_space; trivial.
Qed.

Lemma tidy_abstract_lines (lines : list str) :
  tidy false (join (py " ") (abstract_lines lines)) = true.
Proof.
  induction lines as [|l rest IH]; [reflexivity|]. simpl.
  destruct (re_match ABSTRACT_INLINE_PAT l) as [m|].
  - apply tidy_join_after;
      [apply tidy_clean_line | apply strip_by_trimmed | apply accumulate_solid].
  - destruct (matches ABSTRACT_HEAD_PAT l); [|exact IH].
    pose proof (accumulate_solid rest) as Hacc.
    destruct (accumulate rest) as [|y acc]; [reflexivity|].
    apply tidy_weaken. now apply join_solid.
Qed.

Lemma split_head_prefix (r : regex) (x : str) :
  exists rest, x = split_head r x ++ rest.
Proof.
  unfold split_head, re_search.
  destruct (search_from r false [] x) as [[b e]|] eqn:E.
  - apply search_from_prefix in E as (s' & E). now exists s'.
  - exists []. now rewrite app_nil_r.
Qed.

(** X16. The abstract is in the normal form of a cleaned line: single plain
    spaces between words, no whitespace at either end.  Cleaning it
    changes nothing. *)
Theorem find_abstract_normalized (text : str) :
  clean_line (find_abstract text) = find_abstract text.
Proof.
  assert (Ht : tidy false (find_abstract text) = true).
  { unfold find_abstract. apply (tidy_strip _ false).
    destruct (split_head_prefix KEYWORDS_MARK_PAT
                (strip (join (py " ") (abstract_lines (splitlines text))))) as (rest & E).
    apply (tidy_prefix _ rest). rewrite <- E.
    apply (tidy_strip _ false), tidy_abstract_lines. }
  unfold clean_line. rewrite sub_spaces_fixed by exact Ht.
  apply strip_by_fixed. unfold find_abstract. apply strip_by_trimmed.
Qed.

(** ** The matcher misses no match *)

Lemma rep_loop_complete (a : regex) (k : mstate -> option mstate) :
  (forall k' st, run a k' st = None -> forall st', reach a st st' -> k' st' = None) ->
  forall n st, length (ahead st) <= n -> rep_loop (run a) k n st = None ->
               forall st', reach (Rep a) st st' -> k st' = None.
Proof.
  intros Ha. induction n as [|n IH]; intros st Hlen H st' R; simpl in H.
  - inv R; [exact H | lia].
  - destruct (run a _ st) eqn:E; [discriminate|]. inv R; [exact H|].
    match goal with Hr : reach a st ?s2 |- _ =>
      pose proof (Ha _ _ E _ Hr) as Hk end.
    simpl in Hk.
    match goal with Hlt : length (ahead ?s2) < length (ahead st) |- _ =>
      rewrite (proj2 (Nat.ltb_lt _ _) Hlt) in Hk; apply (IH s2); [lia | exact Hk | assumption]
    end.
Qed.

(** When the matcher answers nothing, the continuation refuses every
    position the pattern reaches. *)
Lemma run_complete (r : regex) :
  forall k st, run r k st = None -> forall st', reach r st st' -> k st' = None.
Proof.
  induction r as [ | p | a IHa b IHb | a IHa b IHb | a IHa | i a IHa | | | ];
    intros k st H st' R; simpl in H.
  - inv R. exact H.
  - inv R. match goal with E : ahead st = _ |- _ => rewrite E in H end.
    match goal with E : p _ = true |- _ => rewrite E in H end. exact H.
  - inv R. eapply IHb; [|eassumption]. eapply IHa; eassumption.
  - destruct (run a k st) eqn:E; [discriminate|].
    inv R; [eapply IHa | eapply IHb]; eassumption.
  - eapply rep_loop_complete; eauto.
  - inv R. apply (IHa _ _ H) in H4. exact H4.
  - inv R. match goal with E : seen st' = [] |- _ => rewrite E in H end. exact H.
  - inv R. match goal with E : _ \/ _ |- _ => destruct E as [E | E]; rewrite E in H end;
      exact H.
  - inv R. match goal with E : xorb _ _ = true |- _ => rewrite E in H end. exact H.
Qed.

(** A match found in a text is found again when more text follows, as long
    as the word boundary at the end of the text stays one. *)
Lemma reach_extended (o z : str) (r : regex) (st st' : mstate) :
  (forall t c, o = t ++ [c] -> is_word c = true -> word_first z = false) ->
  reach r st st' -> no_eol r -> rev (seen st) ++ ahead st = o ->
  reach r (extended z st) (extended z st') /\ rev (seen st') ++ ahead st' = o.
Proof.
  intros Hend H. induction H as [ st | p c t st E Hp | a b s1 s2 s3 _ IH1 _ IH2
                 | a b s1 s2 _ IH | a b s1 s2 _ IH | a st
                 | a s1 s2 s3 _ IH1 Hlt _ IH2 | i a s1 s2 Hr IH
                 | st Hs | st He | st Hw ]; simpl; intros Hn Inv.
  - split; [constructor | exact Inv].
  - split.
    + change (extended z (shift c t st)) with (shift c (t ++ z) (extended z st)).
      apply reach_sym; [simpl; now rewrite E | exact Hp].
    + simpl. rewrite E in Inv. now rewrite <- app_assoc.
  - destruct Hn as [Ha Hb]. destruct (IH1 Ha Inv) as [R1 I1].
    destruct (IH2 Hb I1) as [R2 I2]. split; [eapply reach_cat; eauto | exact I2].
  - destruct (IH (proj1 Hn) Inv) as [R I]. split; [now apply reach_or_l | exact I].
  - destruct (IH (proj2 Hn) Inv) as [R I]. split; [now apply reach_or_r | exact I].
  - split; [apply reach_rep_stop | exact Inv].
  - destruct (IH1 Hn Inv) as [R1 I1]. destruct (IH2 Hn I1) as [R2 I2].
    split; [|exact I2]. eapply reach_rep_more; eauto.
    simpl. rewrite !length_app. lia.
  - destruct (IH Hn Inv) as [R I]. split; [|exact I].
    destruct (reach_ahead _ _ _ Hr) as (xs & E).
    assert (Eg : group_span s1 s2 = group_span (extended z s1) (extended z s2)).
    { rewrite (group_span_app _ _ _ E). symmetry. apply group_span_app.
      simpl. rewrite E. now rewrite app_assoc. }
    rewrite Eg.
    change (extended z (set_group i (group_span (extended z s1) (extended z s2)) s2))
      with (set_group i (group_span (extended z s1) (extended z s2)) (extended z s2)).
    now apply reach_grp.
  - split; [now apply reach_bol | exact Inv].
  - contradiction.
  - split; [|exact Inv]. apply reach_wordb.
    unfold word_before, word_after in *. simpl.
    destruct (ahead st) as [|c t] eqn:Ea; [|exact Hw].
    simpl. rewrite xorb_false_r in Hw. rewrite Hw.
    rewrite app_nil_r in Inv.
    destruct (seen st) as [|c sn] eqn:Es; [discriminate|].
    simpl in Inv. fold (word_first z). rewrite (Hend (rev sn) c); [reflexivity | now symmetry | exact Hw].
Qed.

(** [search] finds the leftmost match: no match starts before it. *)
Lemma search_from_leftmost (r : regex) (s : str) :
  forall sn,
    match search_from r false sn s with
    | Some (b, e) =>
        exists u v, s = u ++ v /\ b = MState (rev u ++ sn) v []
                    /\ forall u' v', s = u' ++ v' -> length u' < length u ->
                                     run r Some (MState (rev u' ++ sn) v' []) = None
    | None =>
        forall u' v', s = u' ++ v' -> run r Some (MState (rev u' ++ sn) v' []) = None
    end.
Proof.
  induction s as [|c t IH]; intro sn; simpl;
    change (fun st' : mstate => Some st') with (@Some mstate).
  - destruct (run r Some _) as [e|] eqn:E.
    + exists [], []. repeat split. intros u' v' _ Hlt. simpl in Hlt. lia.
    + intros u' v' Huv. symmetry in Huv. apply app_eq_nil in Huv as [-> ->]. exact E.
  - destruct (run r Some _) as [e|] eqn:E.
    + exists [], (c :: t). repeat split. intros u' v' _ Hlt. simpl in Hlt. lia.
    + specialize (IH (c :: sn)).
      destruct (search_from r false (c :: sn) t) as [[b e]|].
      * destruct IH as (u & v & -> & -> & Hbefore).
        exists (c :: u), v. split; [reflexivity|]. split.
        { simpl. now rewrite <- app_assoc. }
        intros [|c' u'] v' Huv Hlt.
        { simpl in Huv. subst v'. exact E. }
        simpl in Huv. injection Huv as <- Huv. simpl. rewrite <- app_assoc.
        apply Hbefore; [exact Huv | simpl in Hlt; lia].
      * intros [|c' u'] v' Huv.
        { simpl in Huv. subst v'. exact E. }
        simpl in Huv. injection Huv as <- Huv. simpl. rewrite <- app_assoc.
        now apply IH.
Qed.

(** ** Cutting at the first marker *)

Lemma reach_ilit_of_moves (w : str) (st st' : mstate) :
  w <> [] -> reach (ilit_of w) st st' -> length (ahead st') < length (ahead st).
Proof.
  destruct w as [|c w]; [congruence|]. intros _ R. simpl in R. inv R.
  match goal with H : reach (Sym _) _ _ |- _ => inv H end.
  match goal with H : reach (ilit_of w) _ _ |- _ =>
    apply reach_ahead in H as (xs & E) end.
  simpl in E. match goal with H : ahead st = _ |- _ => rewrite H end.
  rewrite E. simpl. rewrite length_app. lia.
Qed.

(** A keywords marker begins at a word boundary and is not empty. *)
Lemma keywords_mark_shape (st st' : mstate) :
  reach KEYWORDS_MARK_PAT st st' ->
  xorb (word_before st) (word_after st) = true
  /\ length (ahead st') < length (ahead st).
Proof.
  unfold KEYWORDS_MARK_PAT. intro R. cbn [cat] in R. inv R.
  match goal with H : reach Wordb _ _ |- _ => inv H end.
  split; [assumption|].
  match goal with H : reach (Cat (Grp _ _) _) _ _ |- _ => inv H end.
  match goal with H : reach (Cat Wordb _) _ _ |- _ =>
    apply reach_ahead in H as (xs & E) end.
  match goal with H : reach (Grp _ _) _ _ |- _ => inv H end.
  cbn [set_group ahead] in E.
  match goal with H : reach (Or _ _) ?a ?b |- _ =>
    enough (length (ahead b) < length (ahead a))
      by (rewrite E, length_app in *; lia);
    inv H
  end.
  - match goal with H : reach keywords_word _ _ |- _ => unfold keywords_word in H; inv H end.
    match goal with H : reach (Opt _) _ _ |- _ => apply reach_ahead in H as (ys & E') end.
    match goal with H : reach (ilit _) _ _ |- _ =>
      apply reach_ilit_of_moves in H; [|discriminate] end.
    rewrite E', length_app in *. lia.
  - match goal with H : reach index_terms_word _ _ |- _ =>
      unfold index_terms_word in H; cbn [cat] in H; inv H end.
    match goal with H : reach (Cat spaces _) _ _ |- _ => apply reach_ahead in H as (ys & E') end.
    match goal with H : reach (ilit _) _ _ |- _ =>
      apply reach_ilit_of_moves in H; [|discriminate] end.
    rewrite E', length_app in *. lia.
Qed.

(** What [re.split] leaves before the first match of a pattern that begins
    at a word boundary holds no match itself, even with its ends stripped. *)
Lemma split_head_holds_none (r : regex) (x : str) :
  no_eol r ->
  (forall st st', reach r st st' ->
                  xorb (word_before st) (word_after st) = true
                  /\ length (ahead st') < length (ahead st)) ->
  tidy false x = true -> trimmed is_space x ->
  found r (strip (split_head r x)) = false.
Proof.
  intros Hne Hshape Ht Htr. unfold found, split_head, re_search.
  destruct (search_from r false [] x) as [[b e]|] eqn:E.
  - pose proof (search_from_leftmost r x []) as L. rewrite E in L.
    destruct L as (u & v & Hx & Hb & Hbefore). rewrite app_nil_r in Hb.
    apply search_from_reach in E. subst b. cbn [seen]. rewrite rev_involutive.
    destruct (strip_by_split is_space u) as (pre & post & Hu & Hpre & Hpost).
    fold (strip u) in Hu.
    assert (pre = []) as ->.
    { destruct pre as [|c pre]; [reflexivity|]. exfalso.
      simpl in Hpre. apply andb_prop in Hpre as [Hc _].
      destruct Htr as [Hhead _]. rewrite Hu in Hx. simpl in Hx.
      rewrite (Hhead _ _ Hx) in Hc. discriminate. }
    simpl in Hu.
    destruct (search_from r false [] (strip u)) as [[b' e']|] eqn:E'; [exfalso | reflexivity].
    pose proof (search_from_leftmost r (strip u) []) as L. rewrite E' in L.
    destruct L as (u' & v' & Hh & Hb' & _). rewrite app_nil_r in Hb'.
    apply search_from_reach in E'. subst b'.
    destruct (Hshape _ _ E') as [_ Hmove]. cbn [ahead] in Hmove.
    assert (Hend : forall t c, strip u = t ++ [c] -> is_word c = true ->
                               word_first (post ++ v) = false).
    { intros t c Ht' Hc. destruct post as [|c0 post].
      - simpl. destruct (Hshape _ _ E) as [Hb _].
        unfold word_before, word_after in Hb. cbn [seen ahead] in Hb.
        rewrite Hu, app_nil_r, Ht', rev_app_distr in Hb. simpl in Hb.
        rewrite Hc in Hb. simpl in Hb. unfold word_first.
        destruct v as [|c1 v]; [reflexivity|]. now apply negb_true_iff in Hb.
      - simpl in Hpost. apply andb_prop in Hpost as [Hc0 _].
        assert (c0 = 32%N) as ->; [|reflexivity].
        apply (tidy_only_spaces x false Ht); [|exact Hc0].
        rewrite Hx, Hu. apply in_or_app. left. apply in_or_app. right. now left. }
    destruct (reach_extended (strip u) (post ++ v) r _ _ Hend E' Hne) as [R _].
    { cbn [seen ahead]. rewrite rev_involutive. now symmetry. }
    unfold extended in R. cbn [seen ahead groups] in R.
    assert (Hnone : run r Some (MState (rev u' ++ []) (v' ++ post ++ v) []) = None).
    { apply Hbefore.
      - rewrite Hx, Hu, Hh. now rewrite <- !app_assoc.
      - rewrite Hu, Hh, !length_app. lia. }
    rewrite app_nil_r in Hnone.
    apply (run_complete r _ _ Hnone) in R. discriminate.
  - unfold strip. rewrite (strip_by_fixed is_space x Htr), E. reflexivity.
Qed.

(** X17. The abstract never holds a keywords marker: no "keyword(s)" or
    "index term(s)" standing as a word of its own, in any letter case,
    is left in what [find_abstract] returns. *)
Theorem abstract_holds_no_marker (text : str) :
  found KEYWORDS_MARK_PAT (find_abstract text) = false.
Proof.
  unfold find_abstract. apply split_head_holds_none.
  - cbv. tauto.
  - apply keywords_mark_shape.
  - apply (tidy_strip _ false), tidy_abstract_lines.
  - apply strip_by_trimmed.
Qed.

(** ** Assembling the record *)

Lemma split_from_nonempty (sep s : str) :
  forall skip cur, split_from sep skip cur s <> [].
Proof.
  induction s as [|c t IH]; intros skip cur; simpl; [discriminate|].
  destruct skip; [|apply IH].
  destruct (is_prefix sep (c :: t)); [discriminate | apply IH].
Qed.

Lemma split_from_dot_last (s : str) :
  forall cur, last (split_from [46%N] 0 cur s) []
              = if has_dot s then after_last_dot s else rev cur ++ s.
Proof.
  induction s as [|c t IH]; intro cur.
  - simpl. now rewrite app_nil_r.
  - cbn [split_from is_prefix length Nat.sub has_dot existsb after_last_dot].
    fold (has_dot t). rewrite andb_true_r. destruct (46 =? c)%N eqn:E.
    + apply N.eqb_eq in E. subst c. rewrite orb_true_l.
      pose proof (split_from_nonempty [46%N] t 0 []) as Hne.
      specialize (IH []). rewrite app_nil_l in IH.
      destruct (split_from [46%N] 0 [] t) as [|x l] eqn:Es; [congruence|].
      change (last (rev cur :: x :: l) []) with (last (x :: l) []).
      rewrite IH. rewrite N.eqb_refl. reflexivity.
    + rewrite orb_false_l, IH. destruct (has_dot t); [reflexivity|].
      simpl. now rewrite <- app_assoc.
Qed.

Lemma extension_spec (name : str) :
  extension name = lower (if has_dot name then after_last_dot name else name).
Proof.
  unfold extension, split. change (py ".") with [46%N].
  rewrite split_from_dot_last. reflexivity.
Qed.

Section Assembler.

Variable file : Type.
Variable extract_text_from_pdf : file -> str.
Variable extract_text_from_docx : file -> str.

Local Abbreviation parse := (parse_file extract_text_from_pdf extract_text_from_docx).

(** Replacing every run of whitespace by nothing leaves exactly the code
    points that are not whitespace, in their order. *)
Lemma sub_spaces_removes (s : str) :
  forall b, sub_spaces [] b s = non_whitespace s.
Proof.
  induction s as [|c t IH]; intro b; simpl; [reflexivity|].
  destruct (is_space c); simpl.
  - destruct b; apply IH.
  - f_equal. apply IH.
Qed.

Lemma parse_file_pdf (f : file) (name : str) :
  extension name = py "pdf" ->
  parse f name =
  (supported_calls CallExtractPdf,
   let text := extract_text_from_pdf f in
   Record_ name (find_authors text) (find_abstract text) (find_keywords text)
           (if length (sub_spaces [] false text) <? 200
            then py "Possible scanned/non-searchable PDF." else [])).
Proof. intro E. unfold parse_file. rewrite E. reflexivity. Qed.

Lemma parse_file_docx (f : file) (name : str) :
  extension name = py "docx" ->
  parse f name =
  (supported_calls CallExtractDocx,
   let text := extract_text_from_docx f in
   Record_ name (find_authors text) (find_abstract text) (find_keywords text) []).
Proof. intro E. unfold parse_file. rewrite E. reflexivity. Qed.

Lemma parse_file_other (f : file) (name : str) :
  extension name <> py "pdf" -> extension name <> py "docx" ->
  parse f name = ([], unsupported name).
Proof.
  intros E1 E2. unfold parse_file.
  apply str_eqb_neq in E1, E2. rewrite E1, E2. reflexivity.
Qed.

(** C5. When the declared type is neither pdf nor docx, no reader and no
    extractor is called, and the record carries the file name unchanged,
    empty authors, abstract and keywords, and the note "Unsupported file
    type". *)
Theorem unsupported_type_bypasses_extractors (f : file) (name : str) :
  extension name <> py "pdf" -> extension name <> py "docx" ->
  fst (parse f name) = []
  /\ snd (parse f name) = Record_ name [] [] [] (py "Unsupported file type").
Proof.
  intros E1 E2. rewrite parse_file_other by assumption. split; reflexivity.
Qed.

(** C6. A pdf whose text holds fewer than 200 code points that are not
    whitespace gets the note "Possible scanned/non-searchable PDF."; a pdf
    with 200 or more, and every docx, gets an empty note.  The count is
    that of [non_whitespace], which the program's substitution is shown to
    compute. *)
Theorem low_yield_note (f : file) (name : str) :
  (extension name = py "pdf" /\ length (non_whitespace (extract_text_from_pdf f)) < 200 ->
   notes (snd (parse f name)) = py "Possible scanned/non-searchable PDF.")
  /\ (extension name = py "pdf" /\ 200 <= length (non_whitespace (extract_text_from_pdf f)) ->
      notes (snd (parse f name)) = [])
  /\ (extension name = py "docx" -> notes (snd (parse f name)) = []).
Proof.
  repeat split.
  - intros [E L]. rewrite parse_file_pdf by assumption. simpl.
    rewrite sub_spaces_removes. apply Nat.ltb_lt in L. now rewrite L.
  - intros [E L]. rewrite parse_file_pdf by assumption. simpl.
    rewrite sub_spaces_removes. apply Nat.ltb_ge in L. now rewrite L.
  - intros E. now rewrite parse_file_docx.
Qed.

(** C10, in the form that holds.  The handling is chosen by the lower-cased text after
    the last "." of the file name, or by the whole lower-cased name when it
    has no ".": the pdf reader is called exactly when that text is "pdf",
    the docx reader exactly when it is "docx", and nothing is called
    exactly when it is neither.  So ".PDF" and ".DOCX" are supported. *)
Theorem extension_selects_handling (f : file) (name : str) :
  extension name = lower (if has_dot name then after_last_dot name else name)
  /\ (fst (parse f name) = supported_calls CallExtractPdf <-> extension name = py "pdf")
  /\ (fst (parse f name) = supported_calls CallExtractDocx <-> extension name = py "docx")
  /\ (parse f name = ([], unsupported name)
      <-> extension name <> py "pdf" /\ extension name <> py "docx")
  /\ extension (py "paper.PDF") = py "pdf"
  /\ extension (py "thesis.DOCX") = py "docx".
Proof.
  split; [apply extension_spec|].
  assert (Hcases : extension name = py "pdf" \/ extension name = py "docx"
                   \/ (extension name <> py "pdf" /\ extension name <> py "docx")).
  { destruct (list_eq_dec N.eq_dec (extension name) (py "pdf")); auto.
    destruct (list_eq_dec N.eq_dec (extension name) (py "docx")); auto. }
  split; [|split; [|split; [|split; reflexivity]]].
  - split.
    + intro H. destruct Hcases as [E | [E | [E1 E2]]]; trivial.
      * rewrite parse_file_docx in H by assumption. discriminate.
      * rewrite parse_file_other in H by assumption. discriminate.
    + intro E. now rewrite parse_file_pdf.
  - split.
    + intro H. destruct Hcases as [E | [E | [E1 E2]]]; trivial.
      * rewrite parse_file_pdf in H by assumption. discriminate.
      * rewrite parse_file_other in H by assumption. discriminate.
    + intro E. now rewrite parse_file_docx.
  - split.
    + intro H. destruct Hcases as [E | [E | [E1 E2]]]; [| |split; assumption].
      * rewrite parse_file_pdf in H by assumption. discriminate.
      * rewrite parse_file_docx in H by assumption. discriminate.
    + intros [E1 E2]. now apply parse_file_other.
Qed.

(** X18. A file whose reader hands back nothing but whitespace (the empty
    text of a failed read, a scan without a text layer) gives a record with
    the file name and empty authors, abstract and keywords.  Read as a pdf
    it carries the note "Possible scanned/non-searchable PDF."; read as a
    docx it carries no note. *)
Theorem textless_file_record (f : file) (name : str) :
  (extension name = py "pdf" ->
   forallb is_space (extract_text_from_pdf f) = true ->
   snd (parse f name)
   = Record_ name [] [] [] (py "Possible scanned/non-searchable PDF."))
  /\ (extension name = py "docx" ->
      forallb is_space (extract_text_from_docx f) = true ->
      snd (parse f name) = Record_ name [] [] [] []).
Proof.
  split; intros E H.
  - rewrite parse_file_pdf by exact E. cbn [snd].
    now rewrite find_authors_of_blank, find_abstract_of_blank,
      find_keywords_of_blank, squeezed_of_blank.
  - rewrite parse_file_docx by exact E. cbn [snd].
    now rewrite find_authors_of_blank, find_abstract_of_blank,
      find_keywords_of_blank.
Qed.

End Assembler.

End Properties.

(** * Instances

    The statements above hold whatever the Unicode tables are.  Below they
    are applied to concrete ASCII inputs, on which the tables play no
    part. *)

(** ** The author rule (C2) *)

(** C2, against the wording of the specification: on the line
    "John Smith; John Smith" the pattern finds the same name twice, there
    is no comma and no " and ", and yet the line is taken as the author
    line. *)
Lemma same_name_twice_is_accepted :
  (forall U : UnicodeData, @author_line U (py "John Smith; John Smith") = true)
  /\ (forall U : UnicodeData, @find_authors U (py "John Smith; John Smith") = py "John Smith")
  /\ (forall U : UnicodeData, ~ @qualifies_as_specified U (py "John Smith; John Smith")).
Proof.
  split; [intro U; vm_compute; reflexivity|].
  split; [intro U; vm_compute; reflexivity|].
  intros U [H | [H _]]; vm_compute in H; lia.
Qed.

Lemma author_line_rule_witness :
  @find_authors ascii_tables front_matter = py "John A. Smith, Maria Lopez".
Proof.
  destruct (@author_line_rule ascii_tables front_matter [py "On the theory of graphs"]
              (py "John A. Smith, Maria Lopez") []) as (Hiff & Htaken & _).
  - vm_compute. reflexivity.
  - constructor; [|constructor]. intro H.
    apply (@author_line_qualifies ascii_tables) in H. vm_compute in H. discriminate.
  - destruct Htaken as [_ E].
    + apply Hiff. vm_compute. reflexivity.
    + rewrite E. vm_compute. reflexivity.
Defined.

(** ** The abstract (C3, C4, C8) *)

(** C3, against the wording of the specification: when the text after the
    marker begins with the word "abstract" again, so does the output. *)
Lemma repeated_marker_is_kept :
  (forall U : UnicodeData,
     @find_abstract U (py "Abstract: abstract art is studied.")
     = py "abstract art is studied.")
  /\ is_prefix (py "abstract") (py "abstract art is studied.") = true
  /\ contains (py "abstract") (py "abstract art is studied.") = true.
Proof.
  split; [intro U; vm_compute; reflexivity|]. split; reflexivity.
Qed.

Lemma abstract_word_origin_witness :
  exists pre line post,
    splitlines (py "Abstract: abstract art is studied.") = pre ++ line :: post
    /\ Forall (@no_marker ascii_tables) pre
    /\ @marker_line ascii_tables line
    /\ (Exists (occurs_in (py "abstract")) post
        \/ exists lead word rest,
             line = lead ++ word ++ rest
             /\ forallb is_space lead = true
             /\ after_ilit (py "abstract") word = Some []
             /\ occurs_in (py "abstract") rest).
Proof.
  apply (@abstract_word_origin ascii_tables (py "Abstract: abstract art is studied.")
           (py "abstract")).
  - discriminate.
  - reflexivity.
  - exists [], (py " art is studied."). vm_compute. reflexivity.
Defined.

Lemma abstract_stops_at_blank_line_witness :
  @find_abstract ascii_tables ((scenario_A ++ line_feed) ++ py "1 Introduction")
  = @find_abstract ascii_tables (scenario_A ++ line_feed).
Proof.
  apply (@abstract_stops_at_blank_line ascii_tables scenario_A (py "1 Introduction")
           10%N [] (py "Abstract: We present a new method for X.") [] [] []).
  - reflexivity.
  - discriminate.
  - vm_compute. reflexivity.
  - constructor.
  - left. vm_compute. reflexivity.
  - left. reflexivity.
Defined.

(** C8, against the wording of the specification: "Abstract We present X."
    has no separator after the word, and is an inline abstract with the
    fragment "We present X.". *)
Lemma inline_without_separator :
  (forall U : UnicodeData,
     option_map (group 1) (@re_match U ABSTRACT_INLINE_PAT (py "Abstract We present X."))
     = Some (py "We present X."))
  /\ ~ separated_inline (py "Abstract We present X.").
Proof.
  split; [intro U; vm_compute; reflexivity|].
  intros (lead & word & sep & text & E & Hlead & Hword & Hsep & _).
  destruct lead as [|c lead].
  - apply after_ilit_suffix in Hword as (m & Em & Hlen).
    rewrite app_nil_r in Em. subst m. simpl in E.
    apply (f_equal (skipn 8)) in E. rewrite skipn_app in E.
    change (length (py "abstract")) with 8 in Hlen.
    assert (Hw : skipn 8 word = []) by (apply skipn_all2; lia).
    rewrite Hlen, Nat.sub_diag, Hw in E.
    simpl in E. injection E as <- _. discriminate.
  - simpl in E. injection E as <- _. discriminate.
Qed.

Lemma inline_abstract_rule_witness :
  option_map (group 1) (@re_match ascii_tables ABSTRACT_INLINE_PAT (py "Abstract We present X."))
  = Some (py "We present X.").
Proof.
  destruct (@inline_abstract_rule ascii_tables (py "Abstract We present X.")) as [_ Htext].
  - intro H. vm_compute in H. intuition discriminate.
  - apply (Htext [] (py "Abstract") 32%N (py "We present X.")).
    + reflexivity.
    + reflexivity.
    + reflexivity.
    + reflexivity.
    + discriminate.
Defined.

(** ** The record assembler (C5, C6, C10) *)

Lemma unsupported_type_witness :
  fst (@parse_file ascii_tables str read_as_is read_as_is (py "some text") (py "notes.txt")) = []
  /\ snd (@parse_file ascii_tables str read_as_is read_as_is (py "some text") (py "notes.txt"))
     = Record_ (py "notes.txt") [] [] [] (py "Unsupported file type").
Proof.
  apply (@unsupported_type_bypasses_extractors ascii_tables str read_as_is read_as_is).
  - vm_compute. discriminate.
  - vm_compute. discriminate.
Defined.

Lemma low_yield_note_witness :
  notes (snd (@parse_file ascii_tables str read_as_is read_as_is
                (py "Abstract: short scan.") (py "scan.pdf")))
  = py "Possible scanned/non-searchable PDF.".
Proof.
  apply (proj1 (@low_yield_note ascii_tables str read_as_is read_as_is
                  (py "Abstract: short scan.") (py "scan.pdf"))).
  split; [reflexivity | vm_compute; lia].
Defined.

(** C10, against the last clause of the specification's wording: the file
    name "pdf" has no ".", and is handled as a pdf. *)
Lemma dotless_name_can_be_supported :
  has_dot (py "pdf") = false
  /\ (forall (U : UnicodeData) (file : Type) (read_pdf read_docx : file -> str) (f : file),
        fst (@parse_file U file read_pdf read_docx f (py "pdf"))
        = [CallExtractPdf; CallFindAuthors; CallFindAbstract; CallFindKeywords]).
Proof.
  split; [reflexivity|]. intros U file read_pdf read_docx f. reflexivity.
Qed.

(** ** Further properties at work *)

Lemma find_abstract_no_marker_witness : @find_abstract ascii_tables front_matter = [].
Proof.
  apply (@find_abstract_no_marker ascii_tables front_matter).
  vm_compute. repeat constructor.
Defined.

Lemma find_keywords_no_header_witness : @find_keywords ascii_tables front_matter = [].
Proof.
  apply (@find_keywords_no_header ascii_tables front_matter).
  vm_compute. repeat constructor.
Defined.

Lemma keywords_stop_at_boundary_witness :
  @find_keywords ascii_tables ((keywords_block ++ line_feed) ++ py "Index terms: other")
  = @find_keywords ascii_tables (keywords_block ++ line_feed).
Proof.
  apply (@keywords_stop_at_boundary ascii_tables keywords_block (py "Index terms: other")
           10%N [py "On the theory of graphs"] (py "Keywords: graphs; trees,")
           [py "colourings"] [] []).
  - reflexivity.
  - discriminate.
  - vm_compute. reflexivity.
  - vm_compute. repeat constructor.
  - vm_compute. reflexivity.
  - left. reflexivity.
Defined.

Lemma find_authors_reads_40_lines_witness :
  @find_authors ascii_tables ((long_front_matter ++ line_feed) ++ py "Jane Roe, Max Moe")
  = @find_authors ascii_tables (long_front_matter ++ line_feed).
Proof.
  apply (@find_authors_reads_40_lines ascii_tables long_front_matter
           (py "Jane Roe, Max Moe") 10%N).
  - reflexivity.
  - discriminate.
  - vm_compute. lia.
Defined.


Lemma author_names_shape_witness :
  exists c mid d,
    py "Maria Lopez" = c :: mid ++ [d]
    /\ is_upper_ascii c = true /\ is_lower_ascii d = true
    /\ forallb name_char (py "Maria Lopez") = true
    /\ existsb is_space (py "Maria Lopez") = true.
Proof.
  apply (@author_names_shape ascii_tables front_matter (py "Maria Lopez")).
  - vm_compute. discriminate.
  - vm_compute. right. left. reflexivity.
Defined.

Lemma blank_text_yields_nothing_witness :
  @find_authors ascii_tables blank_text = []
  /\ @find_abstract ascii_tables blank_text = []
  /\ @find_keywords ascii_tables blank_text = []
  /\ sub_spaces [] false blank_text = [].
Proof.
  apply (@blank_text_yields_nothing ascii_tables blank_text). reflexivity.
Defined.

Lemma abstract_ignores_preamble_witness :
  @find_abstract ascii_tables ((py "On the theory of graphs" ++ line_feed) ++ scenario_A)
  = @find_abstract ascii_tables scenario_A.
Proof.
  apply (@abstract_ignores_preamble ascii_tables (py "On the theory of graphs")
           scenario_A 10%N).
  - reflexivity.
  - discriminate.
  - vm_compute. repeat constructor.
Defined.

Lemma abstract_built_from_run_witness :
  (forall m,
      @re_match ascii_tables ABSTRACT_INLINE_PAT
                (py "Abstract: We present a new method for X.") = Some m ->
      @find_abstract ascii_tables two_line_abstract
      = strip (@split_head ascii_tables KEYWORDS_MARK_PAT
                 (strip (join (py " ")
                           (clean_line (group 1 m)
                              :: map clean_line [py "It is fast."])))))
  /\ @find_abstract ascii_tables two_line_abstract
     = py "We present a new method for X. It is fast.".
Proof.
  split; [|vm_compute; reflexivity].
  apply (@abstract_built_from_run ascii_tables two_line_abstract []
           (py "Abstract: We present a new method for X.") [py "It is fast."]
           [[]; py "1 Introduction"]).
  - vm_compute. reflexivity.
  - constructor.
  - constructor; [vm_compute; reflexivity | constructor].
  - right. exists [], [py "1 Introduction"]. split; reflexivity.
Defined.

Lemma textless_file_record_witness :
  snd (@parse_file ascii_tables str read_as_is read_as_is blank_text (py "scan.pdf"))
  = Record_ (py "scan.pdf") [] [] [] (py "Possible scanned/non-searchable PDF.")
  /\ snd (@parse_file ascii_tables str read_as_is read_as_is blank_text (py "notes.docx"))
     = Record_ (py "notes.docx") [] [] [] [].
Proof.
  split.
  - apply (proj1 (@textless_file_record ascii_tables str read_as_is read_as_is
                    blank_text (py "scan.pdf"))); reflexivity.
  - apply (proj2 (@textless_file_record ascii_tables str read_as_is read_as_is
                    blank_text (py "notes.docx"))); reflexivity.
Defined.

Lemma keywords_ignore_preamble_witness :
  @find_keywords ascii_tables
    ((py "Abstract: We study graphs." ++ line_feed) ++ py "Keywords: graphs; trees")
  = @find_keywords ascii_tables (py "Keywords: graphs; trees").
Proof.
  apply (@keywords_ignore_preamble ascii_tables (py "Abstract: We study graphs.")
           (py "Keywords: graphs; trees") 10%N).
  - reflexivity.
  - discriminate.
  - vm_compute. repeat constructor.
Defined.
